(** * Top-languages card: fetcher normalisation, merge pass and layout geometry

    A shallow embedding of [fetchTopLanguages] (the fetcher) and of
    [src/cards/top-languages-card.js] (merge pass, selection, compact strip
    geometry, card heights), with the properties the specification states
    about them.

    Numbers.  JavaScript Numbers are modelled in exact arithmetic: a finite
    Number is a rational ([Qc], canonical fractions, so that equality of
    Numbers is Leibniz equality), and the three non-finite values are kept
    apart.  The two zeros are identified.  Rounding of binary64 is therefore
    not part of the model; everything else (division by zero, absorption of
    NaN, the decimal rounding done by [toFixed]) is. *)

From Stdlib Require Import Ascii String QArith Qcanon Qround Qabs Lqa Sorted.
From stdpp Require Import base numbers option list strings pretty gmap fin_maps.

Open Scope Z_scope.

(** ** Numbers *)

Module Num.

Inductive number : Type :=
| Fin (q : Qc)
| NaN
| PosInf
| NegInf.

#[global] Instance number_eq_dec : EqDecision number.
Proof. solve_decision. Defined.

Definition ofQ (q : Q) : number := Fin (Q2Qc q).
Definition ofZ (z : Z) : number := ofQ (inject_Z z).
Definition ofNat (n : nat) : number := ofZ (Z.of_nat n).

#[global] Arguments ofQ : simpl never.
#[global] Arguments ofZ : simpl never.
#[global] Arguments ofNat : simpl never.

Definition isFinite (x : number) : bool :=
  match x with Fin _ => true | _ => false end.

(** The global [isNaN] applied to a Number. *)
Definition isNaN (x : number) : bool :=
  match x with NaN => true | _ => false end.

(** Sign of a finite value: [Lt], [Eq] or [Gt] against zero. *)
Definition sgn (q : Qc) : comparison := (q ?= 0)%Qc.

Definition neg (x : number) : number :=
  match x with
  | Fin q => Fin (- q)%Qc
  | NaN => NaN
  | PosInf => NegInf
  | NegInf => PosInf
  end.

(** [x + y] *)
Definition add (x y : number) : number :=
  match x, y with
  | NaN, _ | _, NaN => NaN
  | Fin a, Fin b => Fin (a + b)%Qc
  | PosInf, NegInf | NegInf, PosInf => NaN
  | PosInf, _ | _, PosInf => PosInf
  | NegInf, _ | _, NegInf => NegInf
  end.

(** [x - y] *)
Definition sub (x y : number) : number := add x (neg y).

(** An infinity with the sign of [c]; zero times infinity is NaN. *)
Definition inf_of_sign (c : comparison) : number :=
  match c with Gt => PosInf | Lt => NegInf | Eq => NaN end.

(** [x * y] *)
Definition mul (x y : number) : number :=
  match x, y with
  | NaN, _ | _, NaN => NaN
  | Fin a, Fin b => Fin (a * b)%Qc
  | Fin a, PosInf | PosInf, Fin a => inf_of_sign (sgn a)
  | Fin a, NegInf | NegInf, Fin a => inf_of_sign (CompOpp (sgn a))
  | PosInf, PosInf | NegInf, NegInf => PosInf
  | PosInf, NegInf | NegInf, PosInf => NaN
  end.

(** [x / y].  A finite value over zero is an infinity of the dividend's
    sign, and [0 / 0] is NaN. *)
Definition div (x y : number) : number :=
  match x, y with
  | NaN, _ | _, NaN => NaN
  | Fin a, Fin b =>
      if decide (b = 0%Qc) then inf_of_sign (sgn a) else Fin (a / b)%Qc
  | Fin _, (PosInf | NegInf) => Fin 0%Qc
  | PosInf, Fin b => if decide (b < 0)%Qc then NegInf else PosInf
  | NegInf, Fin b => if decide (b < 0)%Qc then PosInf else NegInf
  | (PosInf | NegInf), (PosInf | NegInf) => NaN
  end.

(** [x < y]; every comparison with NaN is false. *)
Definition lt (x y : number) : bool :=
  match x, y with
  | NaN, _ | _, NaN => false
  | Fin a, Fin b => bool_decide (a < b)%Qc
  | NegInf, (Fin _ | PosInf) => true
  | Fin _, PosInf => true
  | _, _ => false
  end.

(** [Math.round]: the integer nearest to the argument, ties going up. *)
Definition Math_round (x : number) : number :=
  match x with
  | Fin q => ofZ (Qfloor (q + Q2Qc (1 # 2))%Qc)
  | _ => x
  end.

End Num.
Export Num.

(** ** Strings and the built-ins applied to them

    A string is a sequence of 8-bit code units; case mapping and white space
    are those of ASCII. *)

Module Str.

Open Scope string_scope.

Definition dquote : string := String "034"%char EmptyString.

(** [s] between double quotes, as attribute values are written. *)
Definition quoted (s : string) : string := dquote +:+ s +:+ dquote.

Definition join (sep : string) (l : list string) : string :=
  match l with
  | [] => EmptyString
  | x :: r => foldl (fun acc y => acc +:+ sep +:+ y) x r
  end.

Definition lower_char (c : ascii) : ascii :=
  let n := N_of_ascii c in
  if (65 <=? n)%N && (n <=? 90)%N then ascii_of_N (n + 32) else c.

(** [String.prototype.toLowerCase] *)
Fixpoint toLowerCase (s : string) : string :=
  match s with
  | EmptyString => EmptyString
  | String c r => String (lower_char c) (toLowerCase r)
  end.

Fixpoint trimStart (s : string) : string :=
  match s with
  | EmptyString => EmptyString
  | String c r => if Ascii.is_space c then trimStart r else s
  end.

(** [String.prototype.trim] *)
Definition trim (s : string) : string :=
  String.rev (trimStart (String.rev (trimStart s))).

(** A value is falsy when it is missing ([null] or [undefined]) or the
    empty string. *)
Definition truthy (v : option string) : bool :=
  match v with
  | Some (String _ _) => true
  | _ => false
  end.

(** [v || d] on an optional string *)
Definition or_else (v : option string) (d : string) : string :=
  match v with
  | Some (String c r) => String c r
  | _ => d
  end.

Definition digit_val (c : ascii) : option N :=
  N.of_nat <$> Ascii.is_nat c.

Definition hex_val (c : ascii) : option N :=
  match digit_val c with
  | Some d => Some d
  | None =>
      let n := N_of_ascii (lower_char c) in
      if (97 <=? n)%N && (n <=? 102)%N then Some (n - 87)%N else None
  end.

(** Reads the longest prefix of digits in [radix]; [acc] is the value read
    so far and the boolean tells whether a digit was seen. *)
Fixpoint read_digits (val : ascii -> option N) (radix : N) (s : string)
    (acc : N) (seen : bool) : N * bool * string :=
  match s with
  | EmptyString => (acc, seen, s)
  | String c r =>
      match val c with
      | Some d => read_digits val radix r (acc * radix + d)%N true
      | None => (acc, seen, s)
      end
  end.

(** Splits an optional sign off: [true] for a minus sign. *)
Definition read_sign (s : string) : bool * string :=
  match s with
  | String "-"%char r => (true, r)
  | String "+"%char r => (false, r)
  | _ => (false, s)
  end.

Definition signed (minus : bool) (q : Q) : number :=
  ofQ (if minus then - q else q)%Q.

(** The digits [parseInt] reads when no radix is given: in base 16 after a
    [0x] prefix, in base 10 otherwise. *)
Definition read_integer (s : string) : N * bool * string :=
  match s with
  | String "0"%char (String ("x" | "X")%char r) =>
      read_digits hex_val 16 r 0%N false
  | _ => read_digits digit_val 10 s 0%N false
  end.

(** [parseInt(s)] with no radix: leading white space, a sign, a [0x]
    prefix selecting base 16, then the longest run of digits; NaN when
    there is none. *)
Definition parseInt (s : string) : number :=
  let '(minus, s1) := read_sign (trimStart s) in
  let '(v, seen, _) := read_integer s1 in
  if seen then signed minus (inject_Z (Z.of_N v)) else NaN.

Fixpoint count_digits (s : string) : nat :=
  match s with
  | String c r =>
      match digit_val c with
      | Some _ => S (count_digits r)
      | None => O
      end
  | EmptyString => O
  end.

(** The exponent part of a decimal literal, [0] when absent or malformed. *)
Definition read_exponent (s : string) : Z :=
  match s with
  | String ("e" | "E")%char r =>
      let '(minus, r1) := read_sign r in
      let '(e, seen, _) := read_digits digit_val 10 r1 0%N false in
      if seen then (if minus then - Z.of_N e else Z.of_N e) else 0
  | _ => 0
  end.

(** [parseFloat(s)]: leading white space, a sign, then [Infinity] or the
    longest decimal literal (digits, fraction, exponent); NaN when neither
    is there. *)
Definition parseFloat (s : string) : number :=
  let '(minus, s1) := read_sign (trimStart s) in
  if String.prefix "Infinity" s1 then (if minus then NegInf else PosInf)
  else
    let '(ip, seen_i, s2) := read_digits digit_val 10 s1 0%N false in
    let '(fp, seen_f, nf, s3) :=
      match s2 with
      | String "."%char r =>
          let '(f, seen, r') := read_digits digit_val 10 r 0%N false in
          (f, seen, count_digits r, r')
      | _ => (0%N, false, O, s2)
      end in
    if seen_i || seen_f then
      let mant := (inject_Z (Z.of_N ip)
                   + inject_Z (Z.of_N fp) / inject_Z (10 ^ Z.of_nat nf))%Q in
      signed minus (mant * Qpower (inject_Z 10) (read_exponent s3))%Q
    else NaN.

End Str.
Export Str.

(** ** Numbers written as text *)

(** What the engine does and this development leaves open: the decimal text
    [ToString] gives a finite Number. *)
Class Runtime := { showFinite : Qc -> string }.

Section Number_text.
Context `{Runtime}.
Open Scope string_scope.

(** [String(x)], also what a template literal interpolates. *)
Definition Number_toString (x : number) : string :=
  match x with
  | Fin q => showFinite q
  | NaN => "NaN"
  | PosInf => "Infinity"
  | NegInf => "-Infinity"
  end.

Definition digit_char (d : N) : string := String (pretty_N_char d) EmptyString.

(** The integer [n] for which [n / 100] is nearest to [a], the larger one on
    a tie ([a] is not negative). *)
Definition nearest_hundredth (a : Q) : N :=
  Z.to_N (Qfloor (a * inject_Z 100 + (1 # 2))).

(** [x.toFixed(2)]: a non-finite value or one of magnitude [10^21] or more
    is written by [ToString]; otherwise the sign, the integer part, a point
    and two digits of the magnitude rounded to hundredths. *)
Definition Number_toFixed2 (x : number) : string :=
  match x with
  | Fin q =>
      if Qle_bool (inject_Z (10 ^ 21)) (Qabs q) then Number_toString x
      else
        let n := nearest_hundredth (Qabs q) in
        (if Qlt_le_dec q 0 then "-" else EmptyString)
          +:+ pretty (n / 100)%N +:+ "."
          +:+ digit_char ((n / 10) mod 10)%N +:+ digit_char (n mod 10)%N
  | _ => Number_toString x
  end.

End Number_text.

(** ** Objects used as maps *)

(** Own property names of [Object.prototype], which every object literal
    inherits; all of them hold objects or functions, hence truthy values. *)
Definition Object_prototype_keys : list string :=
  [ "constructor"; "__defineGetter__"; "__defineSetter__"; "hasOwnProperty";
    "__lookupGetter__"; "__lookupSetter__"; "isPrototypeOf";
    "propertyIsEnumerable"; "toString"; "valueOf"; "__proto__";
    "toLocaleString" ]%string.

(** The truth value of [o[k]] for an object literal [o] whose own properties
    all hold booleans: an own property wins, an inherited one is truthy and a
    missing one is [undefined]. *)
Definition prop_truthy (o : gmap string bool) (k : string) : bool :=
  match o !! k with
  | Some b => b
  | None => bool_decide (k ∈ Object_prototype_keys)
  end.

(** ** Arrays *)

Section Arrays.
Context {A : Type}.

(** [Array.prototype.sort(cmp)].  The sort is stable; a comparator result
    that is NaN counts as [0].  [x] moves past [y] only when [cmp x y > 0].
    (With an inconsistent comparator the engine may answer differently; the
    properties below that need the order assume finite sizes.) *)
Fixpoint sort_insert (cmp : A -> A -> number) (x : A) (l : list A) : list A :=
  match l with
  | [] => [x]
  | y :: r =>
      if lt (ofZ 0) (cmp x y) then y :: sort_insert cmp x r else x :: y :: r
  end.

Definition Array_sort (cmp : A -> A -> number) (l : list A) : list A :=
  foldr (sort_insert cmp) [] l.

(** [ToIntegerOrInfinity] followed by the clamping [slice] applies to its
    [end] argument, for an array of length [len]. *)
Definition slice_end (len : nat) (e : number) : nat :=
  match e with
  | NaN => 0%nat
  | PosInf => len
  | NegInf => 0%nat
  | Fin q =>
      let k := Z.quot (Qnum q) (Z.pos (Qden q)) in
      if (k <? 0)%Z then Z.to_nat (Z.max (Z.of_nat len + k) 0)
      else Nat.min (Z.to_nat k) len
  end.

(** [l.slice(0, e)] *)
Definition Array_slice0 (l : list A) (e : number) : list A :=
  take (slice_end (length l) e) l.

End Arrays.

(** ** Data *)

(** A language record as the fetcher returns it and the card consumes it.
    [name] and [color] may be missing ([None] stands for [null] and
    [undefined]); [size] is a share, not a byte count. *)
Record Lang : Type := mkLang {
  name : option string;
  color : option string;
  size : number;
  repo_name : string
}.

#[global] Instance Lang_eq_dec : EqDecision Lang.
Proof. solve_decision. Defined.

Definition set_size (lang : Lang) (s : number) : Lang :=
  {| name := name lang; color := color lang; size := s;
     repo_name := repo_name lang |}.

(** The GraphQL payload: [languages.edges[i]] with its [node], and
    [repositories.nodes[i]].  [size] is an [Int] in the schema. *)
Record LanguageNode : Type := mkNode {
  node_color : option string;
  node_name : option string
}.

Record LanguageEdge : Type := mkEdge {
  edge_size : Z;
  node : LanguageNode
}.

Record RepoNode : Type := mkRepo {
  repo_node_name : string;
  edges : list LanguageEdge
}.

Record GraphQLError : Type := mkGraphQLError {
  err_type : option string;
  err_message : option string
}.

(** [res]: [res.data.errors] (absent when [None]), [res.statusText] and
    [res.data.data.user.repositories.nodes]. *)
Record Response : Type := mkResponse {
  errors : option (list GraphQLError);
  statusText : string;
  nodes : list RepoNode
}.

(** ** Exceptions *)

(** The secondary message of a [CustomError]: one of the two constants of
    the class used here, or the response's status text. *)
Inductive error_type : Type :=
| USER_NOT_FOUND
| GRAPHQL_ERROR
| StatusText (s : string).

Inductive exn : Type :=
| MissingParamError (missing : list string)
| Error (message : string)
| CustomError (message : option string) (type : error_type)
| TypeError.

Definition Result (A : Type) : Type := exn + A.

Definition ret {A : Type} (a : A) : Result A := inr a.
Definition throw {A : Type} (e : exn) : Result A := inl e.
Definition bind {A B : Type} (c : Result A) (k : A -> Result B) : Result B :=
  match c with
  | inl e => inl e
  | inr a => k a
  end.

Notation "x <- c ;; k" := (bind c (fun x => k))
  (at level 100, c at next level, right associativity).
Notation "c ;; k" := (bind c (fun _ => k))
  (at level 100, right associativity).

(** [if (c) throw e;] *)
Definition throw_if (c : bool) (e : exn) : Result unit :=
  if c then throw e else ret tt.

(** ** The fetcher: [fetchTopLanguages] *)

Section Fetcher.

(** [wrapTextMultiline] of [common/utils.js], which is not among the
    sources; it is only applied on the path for errors with a message. *)
Variable wrapTextMultiline : string -> number -> number -> list string.

Open Scope string_scope.

(** [repo.languages.edges.map(lang => lang.size).reduce((a, b) => a + b, 0)] *)
Definition totalSize (repo : RepoNode) : number :=
  foldl add (ofZ 0) (map (fun lang => ofZ (edge_size lang)) (edges repo)).

(** The object built for each language of [repo]. *)
Definition share (repo : RepoNode) (lang : LanguageEdge) : Lang :=
  {| name := node_name (node lang);
     color := node_color (node lang);
     size := div (ofZ (edge_size lang)) (totalSize repo);
     repo_name := repo_node_name repo |}.

Definition normalize (repo : RepoNode) : list Lang :=
  map (share repo) (edges repo).

(** The second [if (res.data.errors)] block. *)
Definition graphql_errors (res : Response) : Result unit :=
  match errors res with
  | None => ret tt
  | Some errs =>
      e0 <- match errs with
            | [] => throw TypeError
            | e :: _ => ret e
            end ;;
      throw_if (bool_decide (err_type e0 = Some "NOT_FOUND"))
        (CustomError (Some (or_else (err_message e0) "Could not fetch user."))
           USER_NOT_FOUND) ;;
      throw_if (truthy (err_message e0))
        (CustomError
           (head (wrapTextMultiline (default EmptyString (err_message e0))
                    (ofZ 90) (ofZ 1)))
           (StatusText (statusText res))) ;;
      throw (CustomError
        (Some "Something went while trying to retrieve the language data using the GraphQL API.")
        GRAPHQL_ERROR)
  end.

(** [fetchTopLanguages(username, exclude_repo)].  [upstream] is what
    [await retryer(fetcher, { login: username })] yields: a response or an
    exception of the transport.  Logging is left out. *)
Definition fetchTopLanguages (username : string) (exclude_repo : list string)
    (upstream : Result Response) : Result (list (list Lang)) :=
  throw_if (negb (truthy (Some username))) (MissingParamError ["username"]) ;;
  res <- upstream ;;
  match errors res with
  | None => ret tt
  | Some errs =>
      e0 <- match errs with
            | [] => throw TypeError
            | e :: _ => ret e
            end ;;
      throw (Error (or_else (err_message e0) "Could not fetch user"))
  end ;;
  (* Catch GraphQL errors. *)
  graphql_errors res ;;
  let repoNodes := nodes res in
  let repoToHide : gmap string bool :=
    foldl (fun m repoName => <[repoName := true]> m) ∅ exclude_repo in
  let topLangs :=
    map normalize
      (filter (fun repo => length (edges repo) ≠ 0%nat) repoNodes) in
  ret topLangs.

End Fetcher.

(** ** The card: [src/cards/top-languages-card.js] *)

(** The card shell, as [renderTopLanguages] configures it: the constructor's
    arguments and what the four setters record. *)
Module Card.
Record t (Colors : Type) : Type := mk {
  customTitle : option string;
  defaultTitle : string;
  width : number;
  height : number;
  border_radius : option number;
  colors : Colors;
  animations : bool;
  hideBorder : option bool;
  hideTitle : bool;
  css : string
}.
Arguments mk {Colors}.
Arguments customTitle {Colors}.
Arguments defaultTitle {Colors}.
Arguments width {Colors}.
Arguments height {Colors}.
Arguments border_radius {Colors}.
Arguments colors {Colors}.
Arguments animations {Colors}.
Arguments hideBorder {Colors}.
Arguments hideTitle {Colors}.
Arguments css {Colors}.
End Card.

(** Modelled from the spec: the helpers of [common/utils.js] and the classes
    of [common/Card.js] and [common/I18n.js] are not among the sources.  The
    spec treats the card shell, string lookup, text measurement and the
    flex-layout primitive as external collaborators that are pure functions
    of their arguments; they are kept abstract here. *)
Class Collaborators := {
  flexLayout : list string -> number -> option string -> list string;
  measureText : string -> number -> number;
  chunkArray : list Lang -> number -> list (list Lang);
  createProgressNode :
    number -> number -> string -> number -> string -> string -> string;
  Colors : Type;
  getCardColors :
    option string -> option string -> option string -> option string ->
    option string -> Colors;
  textColor : Colors -> string;
  I18n_t : option string -> string -> string;
  Card_render : Card.t Colors -> string -> string
}.

(** Modelled from the spec: [clampValue] of [common/utils.js] is not among
    the sources.  The spec has the count clamped to the range whatever was
    requested; a count that is not a number takes the lower bound. *)
Definition clampValue (n lo hi : number) : number :=
  match n with
  | NaN => lo
  | _ => if lt n lo then lo else if lt hi n then hi else n
  end.

(** Modelled from the spec: [lowercaseTrim] of [common/utils.js] is not
    among the sources.  The spec matches names case-insensitively and
    white-space-trimmed. *)
Definition lowercaseTrim (s : string) : string := trim (toLowerCase s).

(** [TopLangOptions] *)
Record Options : Type := mkOptions {
  hide_title : option bool;
  hide_border : option bool;
  card_width : option number;
  title_color : option string;
  text_color : option string;
  bg_color : option string;
  hide : option (list string);
  theme : option string;
  layout : option string;
  custom_title : option string;
  locale : option string;
  langs_count : option string;
  border_radius : option number;
  border_color : option string
}.

Definition DEFAULT_CARD_WIDTH : number := ofZ 300.
Definition MIN_CARD_WIDTH : number := ofZ 230.
Definition DEFAULT_LANGS_COUNT : string := "5".
Definition DEFAULT_LANG_COLOR : string := "#858585".
Definition CARD_PADDING : number := ofZ 25.

(** One rectangle of a compact strip: the numbers and strings the template
    of [renderCompactLayout] interpolates. *)
Record Segment : Type := mkSegment {
  seg_x : number;
  seg_width : number;
  seg_fill : string;
  seg_repo : string
}.

(** [{ langs, totalLanguageSize }] *)
Record Selection : Type := mkSelection {
  langs : list Lang;
  totalLanguageSize : number
}.

(** [calculateCompactLayoutHeight] *)
Definition calculateCompactLayoutHeight (totalLangs : number) : number :=
  add (ofZ 90) (mul (Math_round (div totalLangs (ofZ 2))) (ofZ 19)).

(** [calculateNormalLayoutHeight] *)
Definition calculateNormalLayoutHeight (totalLangs : number) : number :=
  add (ofZ 45) (mul (add totalLangs (ofZ 1)) (ofZ 40)).

(** [Object.values(topLangs)]: the object is given by its properties in the
    order they are enumerated. *)
Definition Object_values (topLangs : list (string * Lang)) : list Lang :=
  map snd topLangs.

(** [langs.filter(f)] for a callback that may throw. *)
Fixpoint filter_result {A : Type} (f : A -> Result bool) (l : list A)
    : Result (list A) :=
  match l with
  | [] => ret []
  | x :: r =>
      keep <- f x ;;
      r' <- filter_result f r ;;
      ret (if keep then x :: r' else r')
  end.

(** [(a, b) => b.size - a.size] *)
Definition by_size_desc (a b : Lang) : number := sub (size b) (size a).

(** The map built from the [hide] option.  (An assignment to the key
    [__proto__] creates no own property, but reading that key gives the
    prototype object, truthy as well.) *)
Definition langsToHide_of (hide : option (list string)) : gmap string bool :=
  match hide with
  | Some h =>
      foldl (fun m langName => <[lowercaseTrim langName := true]> m) ∅ h
  | None => ∅
  end.

(** The callback given to [filter]; reading [toLowerCase] off a missing name
    throws. *)
Definition not_hidden (langsToHide : gmap string bool) (lang : Lang)
    : Result bool :=
  match name lang with
  | Some n => ret (negb (prop_truthy langsToHide (lowercaseTrim n)))
  | None => throw TypeError
  end.

(** [useLanguages] *)
Definition useLanguages (topLangs : list (string * Lang))
    (hide : option (list string)) (langs_count : string) : Result Selection :=
  let langs := Object_values topLangs in
  let langsCount := clampValue (parseInt langs_count) (ofZ 1) (ofZ 10) in
  let langsToHide := langsToHide_of hide in
  kept <- filter_result (not_hidden langsToHide)
            (Array_sort by_size_desc langs) ;;
  let langs := Array_slice0 kept langsCount in
  let totalLanguageSize :=
    foldl (fun acc curr => add acc (size curr)) (ofZ 0) langs in
  ret {| langs := langs; totalLanguageSize := totalLanguageSize |}.

(** *** The merge pass, on values *)

(** [x.color === lang.color && x.name === lang.name] *)
Definition same_lang (lang x : Lang) : bool :=
  bool_decide (color x = color lang) && bool_decide (name x = name lang).

(** [!lang.color || !lang.name] *)
Definition skipped (lang : Lang) : bool :=
  negb (truthy (color lang)) || negb (truthy (name lang)).

(** The body of the inner [forEach]. *)
Definition merge_step (allUniqueLangs : list Lang) (lang : Lang) : list Lang :=
  if skipped lang then allUniqueLangs
  else
    match list_find (fun x => same_lang lang x = true) allUniqueLangs with
    | Some (i, found) =>
        <[i := set_size found (add (size found) (size lang))]> allUniqueLangs
    | None => allUniqueLangs ++ [lang]
    end.

(** Both loops: every record of every repository, in order. *)
Definition merge_from (acc : list Lang) (langs : list (list Lang))
    : list Lang :=
  foldl (fun acc langs_in_repo => foldl merge_step acc langs_in_repo) acc langs.

Definition merge (langs : list (list Lang)) : list Lang := merge_from [] langs.

(** The accumulated size kept for a (name, color) pair, if there is one. *)
Definition merged_size (n c : option string) (all : list Lang)
    : option number :=
  (fun p => size p.2) <$>
    list_find (fun x => color x = c ∧ name x = n) all.

(** *** The merge pass, on the store

    Records are objects: an array holds references, [found.size += ...]
    writes through one, and the spread [{...lang}] allocates. *)

Definition loc : Type := positive.

Record store : Type := mkStore {
  heap : gmap loc Lang;
  allUniqueLangs : list loc
}.

(** The record a reference of [allUniqueLangs] points to matches [lang]. *)
Definition same_lang_at (h : gmap loc Lang) (lang : Lang) (r : loc) : bool :=
  match h !! r with
  | Some x => same_lang lang x
  | None => false
  end.

(** The body of the inner [forEach] for the record referenced by [l].  (A
    reference always points to an object; for a dangling one the store is
    left as it is.) *)
Definition merge_step_ref (st : store) (l : loc) : store :=
  match heap st !! l with
  | None => st
  | Some lang =>
      if skipped lang then st
      else
        match list_find (fun r => same_lang_at (heap st) lang r = true)
                (allUniqueLangs st) with
        | Some (_, found) =>
            {| heap := alter (fun x => set_size x (add (size x) (size lang)))
                         found (heap st);
               allUniqueLangs := allUniqueLangs st |}
        | None =>
            let fresh_loc := fresh (dom (heap st)) in
            {| heap := <[fresh_loc := lang]> (heap st);
               allUniqueLangs := allUniqueLangs st ++ [fresh_loc] |}
        end
  end.

Definition merge_refs_from (st : store) (langs : list (list loc)) : store :=
  foldl (fun st langs_in_repo => foldl merge_step_ref st langs_in_repo)
    st langs.

(** [allUniqueLangs] starts empty. *)
Definition merge_refs (h : gmap loc Lang) (langs : list (list loc)) : store :=
  merge_refs_from {| heap := h; allUniqueLangs := [] |} langs.

(** The records an array of references points to. *)
Definition deref (h : gmap loc Lang) (refs : list loc) : list Lang :=
  omap (fun r => h !! r) refs.

(** *** Layouts and the card *)

Section Rendering.
Context `{Runtime} `{Collaborators}.
Open Scope string_scope.

Definition nl : string := String "010"%char EmptyString.

(** A template literal, line by line. *)
Definition lines (l : list string) : string := join nl l.

(** [`${v}`] for a name; a missing one prints as [undefined]. *)
Definition interp (v : option string) : string := default "undefined" v.

(** [getLongestLang].  The legend is built from merged records only, whose
    names are present; [null * 100] is [0], so the seed's size is [0]. *)
Definition getLongestLang (arr : list Lang) : Lang :=
  foldl (fun savedLang lang =>
           if (String.length (default EmptyString (name savedLang))
               <? String.length (default EmptyString (name lang)))%nat
           then lang else savedLang)
        {| name := Some EmptyString; size := ofZ 0;
           color := Some EmptyString; repo_name := EmptyString |}
        arr.

(** [createProgressTextNode] *)
Definition createProgressTextNode (width : number)
    (color name progress : string) : string :=
  let paddingRight := ofZ 95 in
  let progressTextX := add (sub width paddingRight) (ofZ 10) in
  let progressWidth := sub width paddingRight in
  lines [
    EmptyString;
    "    <text data-testid=" +:+ quoted "lang-name" +:+ " x=" +:+ quoted "2"
      +:+ " y=" +:+ quoted "15" +:+ " class=" +:+ quoted "lang-name" +:+ ">"
      +:+ name +:+ "</text>";
    "    <text x=" +:+ quoted (Number_toString progressTextX) +:+ " y="
      +:+ quoted "34" +:+ " class=" +:+ quoted "lang-name" +:+ ">"
      +:+ progress +:+ "%</text>";
    "    " +:+ createProgressNode (ofZ 0) (ofZ 25) color progressWidth progress
                "#ddd";
    "  " ].

(** [createCompactLangNode] *)
Definition createCompactLangNode (lang : Lang) : string :=
  let color := or_else (color lang) "#858585" in
  lines [
    EmptyString;
    "    <g>";
    "      <circle cx=" +:+ quoted "5" +:+ " cy=" +:+ quoted "6" +:+ " r="
      +:+ quoted "5" +:+ " fill=" +:+ quoted color +:+ " />";
    "      <text data-testid=" +:+ quoted "lang-name" +:+ " x=" +:+ quoted "15"
      +:+ " y=" +:+ quoted "10" +:+ " class='lang-name'>";
    "        " +:+ interp (name lang);
    "      </text>";
    "    </g>";
    "  " ].

(** [createLanguageTextNode] *)
Definition createLanguageTextNode (langs : list Lang) : string :=
  let longestLang := getLongestLang langs in
  let chunked := chunkArray langs (div (ofNat (length langs)) (ofZ 2)) in
  let items := map createCompactLangNode langs in
  let layout := join EmptyString (flexLayout items (ofZ 25) (Some "column")) in
  let percent := Number_toFixed2 (mul (size longestLang) (ofZ 100)) in
  let minGap := ofZ 150 in
  let maxGap :=
    add (ofZ 20)
      (measureText (interp (name longestLang) +:+ " " +:+ percent +:+ "%")
         (ofZ 11)) in
  join EmptyString
    (flexLayout [layout] (if lt maxGap minGap then minGap else maxGap) None).

(** [renderNormalLayout] *)
Definition renderNormalLayout (langs : list Lang) (width : number)
    (totalLanguageSize : number) : string :=
  join EmptyString
    (flexLayout
       (map (fun lang =>
               createProgressTextNode width
                 (or_else (color lang) DEFAULT_LANG_COLOR)
                 (interp (name lang))
                 (Number_toFixed2
                    (mul (div (size lang) totalLanguageSize) (ofZ 100))))
            langs)
       (ofZ 40) (Some "column")).

(** [percentage] in the callback of [renderCompactLayout]: the width of a
    language's rectangle before the boost. *)
Definition percentage (lang : Lang) (offsetWidth : number) : number :=
  parseFloat (Number_toFixed2 (mul (size lang) offsetWidth)).

(** [progress] in the same callback: the width the rectangle is drawn with. *)
Definition progress (percentage : number) : number :=
  if lt percentage (ofZ 10) then add percentage (ofZ 10) else percentage.

(** The callback of [langs.map] in [renderCompactLayout], with the running
    [progressOffset] passed along: the rectangle of each language. *)
Fixpoint compactProgressBar (langs : list Lang) (offsetWidth : number)
    (progressOffset : number) : list Segment :=
  match langs with
  | [] => []
  | lang :: rest =>
      let percentage := percentage lang offsetWidth in
      let progress := progress percentage in
      {| seg_x := progressOffset; seg_width := progress;
         seg_fill := or_else (color lang) "#858585";
         seg_repo := repo_name lang |}
        :: compactProgressBar rest offsetWidth (add progressOffset percentage)
  end.

(** The markup of one rectangle. *)
Definition segment_markup (username : string) (s : Segment) : string :=
  lines [
    EmptyString;
    "        <a href="
      +:+ quoted ("https://github.com/" +:+ username +:+ "/" +:+ seg_repo s)
      +:+ ">";
    "          <rect";
    "            mask=" +:+ quoted "url(#rect-mask)";
    "            data-testid=" +:+ quoted "lang-progress";
    "            x=" +:+ quoted (Number_toString (seg_x s));
    "            y=" +:+ quoted "0";
    "            width=" +:+ quoted (Number_toString (seg_width s));
    "            height=" +:+ quoted "8";
    "            fill=" +:+ quoted (seg_fill s);
    "          />";
    "        </a>";
    "      " ].

(** [renderCompactLayout] *)
Definition renderCompactLayout (langs : list Lang) (width : number)
    (username : string) : string :=
  let offsetWidth := width in
  let compactProgressBar :=
    join EmptyString
      (map (segment_markup username)
         (compactProgressBar langs offsetWidth (ofZ 0))) in
  lines [
    EmptyString;
    "    <mask id=" +:+ quoted "rect-mask" +:+ ">";
    "      <rect x=" +:+ quoted "0" +:+ " y=" +:+ quoted "0" +:+ " width="
      +:+ quoted (Number_toString offsetWidth) +:+ " height=" +:+ quoted "8"
      +:+ " fill=" +:+ quoted "white" +:+ " rx=" +:+ quoted "5" +:+ " />";
    "    </mask>";
    "    " +:+ compactProgressBar;
    "  " ].

(** The width of the strips: [card_width] when it is a number that is at
    least the minimum. *)
Definition resolve_bar_width (card_width : option number) : number :=
  match card_width with
  | None => DEFAULT_CARD_WIDTH
  | Some w =>
      if isNaN w then DEFAULT_CARD_WIDTH
      else if lt w MIN_CARD_WIDTH then MIN_CARD_WIDTH
      else w
  end.

(** [renderTopLanguages], up to the call of [card.render]: the configured
    card and the body given to it. *)
Definition topLanguagesCard (topLangs : list (list Lang)) (username : string)
    (options : Options) : Card.t Colors * string :=
  let hide_title := default false (hide_title options) in
  let langs_count := default DEFAULT_LANGS_COUNT (langs_count options) in
  let langs := topLangs in
  let bar_width := resolve_bar_width (card_width options) in
  let height := calculateCompactLayoutHeight (ofNat (length langs)) in
  let allUniqueLangs := Array_sort by_size_desc (merge langs) in
  let legend := createLanguageTextNode allUniqueLangs in
  let layouts :=
    map (fun lang => renderCompactLayout lang bar_width username) langs in
  let colors :=
    getCardColors (title_color options) (text_color options) (bg_color options)
      (border_color options) (theme options) in
  let card :=
    {| Card.customTitle := custom_title options;
       Card.defaultTitle := I18n_t (locale options) "langcard.title";
       Card.width := ofZ 480;
       Card.height := height;
       Card.border_radius := border_radius options;
       Card.colors := colors;
       Card.animations := false;
       Card.hideBorder := hide_border options;
       Card.hideTitle := hide_title;
       Card.css :=
         ".lang-name { font: 400 11px 'Segoe UI', Ubuntu, Sans-Serif; fill: "
           +:+ textColor colors +:+ " }" |} in
  let body :=
    join nl
      (imap (fun idx layout =>
               lines [
                 EmptyString;
                 "    <svg data-testid=" +:+ quoted "lang-items" +:+ " x="
                   +:+ quoted (Number_toString CARD_PADDING) +:+ " y="
                   +:+ quoted (Number_toString (mul (ofNat idx) (ofZ 10)));
                 "         width=" +:+ quoted (Number_toString bar_width)
                   +:+ " height=" +:+ quoted "8" +:+ ">";
                 "      " +:+ layout;
                 "    </svg> " ])
            layouts) in
  let legendX := add (add CARD_PADDING DEFAULT_CARD_WIDTH) (ofZ 20) in
  let body :=
    body +:+
    lines [
      EmptyString;
      "    <svg data-testid=" +:+ quoted "lang-items" +:+ " x="
        +:+ quoted (Number_toString legendX) +:+ ">";
      "      " +:+ legend;
      "    </svg> " ] in
  (card, body).

(** [renderTopLanguages] *)
Definition renderTopLanguages (topLangs : list (list Lang)) (username : string)
    (options : Options) : string :=
  let '(card, body) := topLanguagesCard topLangs username options in
  Card_render card body.

End Rendering.

(** ** Auxiliary notions used in the statements *)

(** The byte sizes of a list of edges, added up as integers. *)
Definition bytes (es : list LanguageEdge) : Z :=
  foldr Z.add 0 (map edge_size es).

(** What the callback of [filter] in [useLanguages] answers for a record
    with a name. *)
Definition visible (langsToHide : gmap string bool) (lang : Lang) : bool :=
  match name lang with
  | Some n => negb (prop_truthy langsToHide (lowercaseTrim n))
  | None => false
  end.


(** [x] may stay in front of [y] when the array is sorted with [cmp]. *)
Definition stays {A : Type} (cmp : A -> A -> number) (x y : A) : Prop :=
  lt (ofZ 0) (cmp x y) = false.

Definition finite_size (lang : Lang) : Prop := isFinite (size lang) = true.

(** The body of the inner [forEach] for a record that is not skipped, read
    as a walk along [allUniqueLangs]: the first entry with the record's
    name and color takes its share, and without one the record is added. *)
Fixpoint merge_into (lang : Lang) (all : list Lang) : list Lang :=
  match all with
  | [] => [lang]
  | x :: r =>
      if same_lang lang x then set_size x (add (size x) (size lang)) :: r
      else x :: merge_into lang r
  end.

(** The shares of the records of [l] that carry the pair and are not
    skipped, in order. *)
Definition contributions (n c : option string) (l : list Lang) : list number :=
  map size
    (filter (fun lang => skipped lang = false /\ color lang = c
                         /\ name lang = n) l).

(** Shares added up from zero. *)
Definition total (sizes : list number) : number := foldl add (ofZ 0) sizes.

(** The size kept for a pair once the shares [sizes] have come in, given
    what was kept [before]. *)
Definition accumulated (before : option number) (sizes : list number)
    : option number :=
  match before, sizes with
  | None, [] => None
  | None, _ => Some (total sizes)
  | Some s, _ => Some (add s (total sizes))
  end.

(** The references [refs] point, in order, to the records [vals]. *)
Definition point_to (h : gmap loc Lang) (refs : list loc) (vals : list Lang)
    : Prop :=
  Forall2 (fun r v => h !! r = Some v) refs vals.

(** What holds of the store all along the pass started from the store [h0],
    with [acc] the pass on values. *)
Record merge_inv (h0 : gmap loc Lang) (st : store) (acc : list Lang) : Prop :=
  mk_merge_inv {
    inv_source : forall l, l ∈ dom h0 -> heap st !! l = h0 !! l;
    inv_fresh : Forall (fun r => r ∉ dom h0) (allUniqueLangs st);
    inv_nodup : NoDup (allUniqueLangs st);
    inv_values : point_to (heap st) (allUniqueLangs st) acc
  }.

(** The string starts with a decimal digit. *)
Definition starts_number (s : string) : Prop :=
  exists c r d, s = String c r /\ digit_val c = Some d.

(** Rationals added up. *)
Definition Qsum (l : list Q) : Q := foldr Qplus 0%Q l.


(** Two option records that differ at most in [hide], [langs_count] and
    [layout]. *)
Definition same_but_selection (o1 o2 : Options) : Prop :=
  hide_title o1 = hide_title o2
  /\ hide_border o1 = hide_border o2
  /\ card_width o1 = card_width o2
  /\ title_color o1 = title_color o2
  /\ text_color o1 = text_color o2
  /\ bg_color o1 = bg_color o2
  /\ theme o1 = theme o2
  /\ custom_title o1 = custom_title o2
  /\ locale o1 = locale o2
  /\ border_radius o1 = border_radius o2
  /\ border_color o1 = border_color o2.

(** ** Sample inputs *)

Module Samples.
Open Scope string_scope.

(** The response for a login that does not exist. *)
Definition ghost_response : Response :=
  {| errors :=
       Some [ {| err_type := Some "NOT_FOUND";
                 err_message :=
                   Some "Could not resolve to a User with the login of 'ghost'." |} ];
     statusText := "OK";
     nodes := [] |}.

Definition edge (n c : string) (bytes : Z) : LanguageEdge :=
  {| edge_size := bytes;
     node := {| node_color := Some c; node_name := Some n |} |}.

(** A repository whose only language has no bytes. *)
Definition empty_file_repo : RepoNode :=
  {| repo_node_name := "notes"; edges := [ edge "Markdown" "#083fa1" 0 ] |}.

(** The two repositories of the spec's scenario. *)
Definition alpha : RepoNode :=
  {| repo_node_name := "alpha";
     edges := [ edge "JS" "#f1e05a" 80; edge "TS" "#3178c6" 20 ] |}.

Definition beta : RepoNode :=
  {| repo_node_name := "beta";
     edges := [ edge "TS" "#3178c6" 50; edge "Go" "#00ADD8" 50 ] |}.

Definition ok_response (repos : list RepoNode) : Response :=
  {| errors := None; statusText := "OK"; nodes := repos |}.

Definition no_wrap : string -> number -> number -> list string :=
  fun s _ _ => [s].

Definition lang (n c : string) (s : Q) : Lang :=
  {| name := Some n; color := Some c; size := ofQ s; repo_name := "alpha" |}.

(** The records of the spec's two repositories as objects in a store, and
    the arrays of references [renderTopLanguages] is given. *)
Definition two_repos_store : gmap loc Lang :=
  list_to_map
    [ (1%positive, mkLang (Some "JS") (Some "#f1e05a") (ofQ (4 # 5)) "alpha");
      (2%positive, mkLang (Some "TS") (Some "#3178c6") (ofQ (1 # 5)) "alpha");
      (3%positive, mkLang (Some "TS") (Some "#3178c6") (ofQ (1 # 2)) "beta");
      (4%positive, mkLang (Some "Go") (Some "#00ADD8") (ofQ (1 # 2)) "beta") ].

Definition two_repos_refs : list (list loc) :=
  [ [1%positive; 2%positive]; [3%positive; 4%positive] ].

(** The aggregated languages of the spec's scenario, keyed by name. *)
Definition scenario : list (string * Lang) :=
  [ ("JS", lang "JS" "#f1e05a" (4 # 5));
    ("TS", lang "TS" "#3178c6" (7 # 10));
    ("Go", lang "Go" "#00ADD8" (1 # 2)) ].

(** A repository of three languages with 1, 1 and 5 bytes. *)
Definition sevenths : RepoNode :=
  {| repo_node_name := "gamma";
     edges := [ edge "C" "#555555" 1; edge "Shell" "#89e051" 1;
                edge "Rust" "#dea584" 5 ] |}.

(** A stand-in for the engine's [ToString] on finite numbers: integers in
    decimal, anything else as a fraction. *)
Definition plain_runtime : Runtime :=
  {| showFinite q :=
       if decide (Qden q = 1%positive) then pretty (Qnum q)
       else pretty (Qnum q) +:+ "/" +:+ pretty (Z.pos (Qden q)) |}.

(** Stand-ins for the collaborators. *)
Definition plain_collaborators : Collaborators :=
  {| flexLayout := fun items _ _ => items;
     measureText := fun str _ => mul (ofNat (String.length str)) (ofZ 6);
     chunkArray := fun arr _ => [arr];
     createProgressNode := fun _ _ _ _ _ _ => "<rect/>";
     Colors := string;
     getCardColors := fun _ text _ _ _ => default "#434d58" text;
     textColor := fun c => c;
     I18n_t := fun _ _ => "Most Used Languages";
     Card_render := fun _ body => "<svg>" +:+ body +:+ "</svg>" |}.

Definition no_options : Options :=
  {| hide_title := None; hide_border := None; card_width := None;
     title_color := None; text_color := None; bg_color := None;
     hide := None; theme := None; layout := None; custom_title := None;
     locale := None; langs_count := None; border_radius := None;
     border_color := None |}.

(** The same request with the three selection options set. *)
Definition selection_options : Options :=
  {| hide_title := None; hide_border := None; card_width := None;
     title_color := None; text_color := None; bg_color := None;
     hide := Some ["JS"]; theme := None; layout := Some "compact";
     custom_title := None; locale := None; langs_count := Some "1";
     border_radius := None; border_color := None |}.

End Samples.

(** ** Further notions used in the statements *)

(** What a record of the fetcher's answer says apart from its share. *)
Definition label (lang : Lang) : option string * option string * string :=
  (name lang, color lang, repo_name lang).

(** What an edge of [repo] says apart from its size. *)
Definition edge_label (repo : RepoNode) (e : LanguageEdge)
    : option string * option string * string :=
  (node_name (node e), node_color (node e), repo_node_name repo).

(** The repositories the fetcher keeps: those with languages. *)
Definition with_languages (repos : list RepoNode) : list RepoNode :=
  filter (fun repo => length (edges repo) ≠ 0%nat) repos.

(** The length of a record's name, as [getLongestLang] compares it. *)
Definition name_length (lang : Lang) : nat :=
  String.length (default EmptyString (name lang)).

(** The record [getLongestLang] starts from. *)
Definition longest_seed : Lang :=
  {| name := Some EmptyString; size := ofZ 0; color := Some EmptyString;
     repo_name := EmptyString |}.

(** No hide-list entry matches the name and the name is not one every
    object inherits. *)
Definition kept_name (hide : option (list string)) (n : string) : Prop :=
  (lowercaseTrim n ∉ map lowercaseTrim (default [] hide))
  /\ (lowercaseTrim n ∉ Object_prototype_keys).

(** Canonical rationals added up. *)
Definition Qcsum (l : list Qc) : Qc := foldr Qcplus 0%Qc l.

(** The pair the merge pass tells aggregated languages apart by. *)
Definition lang_key (lang : Lang) : option string * option string :=
  (name lang, color lang).

(** The records the merge pass does not skip. *)
Definition counted (l : list Lang) : list Lang :=
  filter (fun lang => skipped lang = false) l.


(** Equality of outcomes can be decided, so that instances can be checked
    by evaluation. *)
#[global] Instance error_type_eq_dec : EqDecision error_type.
Proof. solve_decision. Defined.

#[global] Instance exn_eq_dec : EqDecision exn.
Proof. solve_decision. Defined.

#[global] Instance Selection_eq_dec : EqDecision Selection.
Proof. solve_decision. Defined.

#[global] Instance Result_eq_dec {A : Type} `{EqDecision A} :
  EqDecision (Result A).
Proof. unfold Result. apply _. Defined.

(** * Properties *)

(** ** Arithmetic of numbers *)

Section Number_facts.

Lemma add_comm x y : add x y = add y x.
Proof. destruct x, y; simpl; try reflexivity. f_equal. ring. Qed.

Lemma add_assoc x y z : add x (add y z) = add (add x y) z.
Proof. destruct x, y, z; simpl; try reflexivity. f_equal. ring. Qed.

Lemma ofQ_eq p q : ofQ p = ofQ q <-> p == q.
Proof.
  unfold ofQ. split.
  - intros Heq. injection Heq as Heq. apply Q2Qc_eq_iff.
    apply Qc_is_canon. simpl. rewrite Heq. reflexivity.
  - intros Heq. f_equal. apply Q2Qc_eq_iff. exact Heq.
Qed.

Lemma ofZ_inj a b : ofZ a = ofZ b -> a = b.
Proof.
  intros Heq. apply ofQ_eq in Heq. unfold Qeq in Heq. simpl in Heq. lia.
Qed.

Lemma ofQ_add p q : add (ofQ p) (ofQ q) = ofQ (p + q).
Proof.
  unfold ofQ; simpl. f_equal. apply Qc_is_canon. simpl.
  rewrite !Qred_correct. reflexivity.
Qed.

Lemma ofQ_mul p q : mul (ofQ p) (ofQ q) = ofQ (p * q).
Proof.
  unfold ofQ; simpl. f_equal. apply Qc_is_canon. simpl.
  rewrite !Qred_correct. reflexivity.
Qed.

Lemma ofZ_add a b : add (ofZ a) (ofZ b) = ofZ (a + b).
Proof.
  unfold ofZ. rewrite ofQ_add. apply ofQ_eq.
  rewrite inject_Z_plus. reflexivity.
Qed.

Lemma ofZ_mul a b : mul (ofZ a) (ofZ b) = ofZ (a * b).
Proof.
  unfold ofZ. rewrite ofQ_mul. apply ofQ_eq.
  rewrite inject_Z_mult. reflexivity.
Qed.

Lemma ofQ_div p q : ~ q == 0 -> div (ofQ p) (ofQ q) = ofQ (p / q).
Proof.
  intros Hq. unfold ofQ, div.
  destruct (decide (Q2Qc q = 0%Qc)) as [Hz|Hz].
  - exfalso. apply Hq. apply Q2Qc_eq_iff. exact Hz.
  - f_equal. apply Qc_is_canon. simpl. rewrite !Qred_correct. reflexivity.
Qed.

Lemma Math_round_ofQ q : Math_round (ofQ q) = ofZ (Qfloor (q + (1 # 2))).
Proof.
  unfold Math_round, ofQ. f_equal. apply Qfloor_comp. simpl.
  rewrite !Qred_correct. reflexivity.
Qed.

(** Half of a natural number, rounded with ties going up. *)
Lemma round_half_nat (r : nat) :
  Math_round (div (ofNat r) (ofZ 2)) = ofZ ((Z.of_nat r + 1) / 2).
Proof.
  unfold ofNat, ofZ at 1 2. rewrite ofQ_div by discriminate.
  rewrite Math_round_ofQ. f_equal.
  transitivity (Qfloor ((Z.of_nat r + 1) # 2)).
  - apply Qfloor_comp. unfold Qeq, Qdiv, Qmult, Qplus, Qinv, inject_Z; simpl.
    lia.
  - reflexivity.
Qed.

Lemma lt_ofZ a b : lt (ofZ a) (ofZ b) = bool_decide (a < b).
Proof.
  unfold lt, ofZ, ofQ. apply bool_decide_ext.
  unfold Qclt. simpl. rewrite !Qred_correct. unfold Qlt. simpl. lia.
Qed.

Lemma lt_ofQ_true (p q : Q) : lt (ofQ p) (ofQ q) = true <-> (p < q)%Q.
Proof.
  unfold lt, ofQ. rewrite bool_decide_eq_true. unfold Qclt. simpl.
  rewrite !Qred_correct. reflexivity.
Qed.

Lemma lt_ofQ_false (p q : Q) : lt (ofQ p) (ofQ q) = false <-> (q <= p)%Q.
Proof.
  rewrite <- not_true_iff_false, lt_ofQ_true. split.
  - apply Qnot_lt_le.
  - apply Qle_not_lt.
Qed.

Lemma this_ofZ (z : Z) : this (Q2Qc (inject_Z z)) = inject_Z z.
Proof. simpl. apply Qred_identity. simpl. apply Z.gcd_1_r. Qed.

Lemma ofQ_neg_Z (z : Z) : ofQ (- inject_Z z) = ofZ (- z).
Proof. apply ofQ_eq. reflexivity. Qed.

End Number_facts.

(** ** Card heights *)

Section Heights.
Context `{Runtime} `{Collaborators}.

(** C8.  [calculateNormalLayoutHeight n] is [45 + (n + 1) * 40] for every
    count [n]; [calculateCompactLayoutHeight r] is [90 + round(r / 2) * 19],
    where rounding a half goes up, so that [round(r / 2)] is the quotient of
    [r + 1] by [2]; and the height [renderTopLanguages] gives the card is the
    compact formula at the number of repositories of its input. *)
Theorem layout_heights (n r : nat) (topLangs : list (list Lang))
    (username : string) (options : Options) :
  calculateNormalLayoutHeight (ofNat n) = ofZ (45 + (Z.of_nat n + 1) * 40)
  /\ calculateCompactLayoutHeight (ofNat r)
     = ofZ (90 + ((Z.of_nat r + 1) / 2) * 19)
  /\ Math_round (div (ofNat r) (ofZ 2)) = ofZ ((Z.of_nat r + 1) / 2)
  /\ Card.height (topLanguagesCard topLangs username options).1
     = calculateCompactLayoutHeight (ofNat (length topLangs)).
Proof.
  repeat split.
  - unfold calculateNormalLayoutHeight, ofNat.
    rewrite ofZ_add, ofZ_mul, ofZ_add. reflexivity.
  - unfold calculateCompactLayoutHeight.
    rewrite round_half_nat, ofZ_mul, ofZ_add. reflexivity.
  - apply round_half_nat.
Qed.

End Heights.

(** ** The fetcher *)

Section Fetcher_facts.
Variable wrapTextMultiline : string -> number -> number -> list string.

Lemma foldl_add_ofZ (es : list LanguageEdge) (a : Z) :
  foldl add (ofZ a) (map (fun lang => ofZ (edge_size lang)) es)
  = ofZ (a + bytes es).
Proof.
  revert a. induction es as [|e es IH]; intros a; cbn [foldl map].
  - f_equal. unfold bytes; simpl. lia.
  - rewrite ofZ_add, IH. f_equal. unfold bytes; simpl. lia.
Qed.

Lemma totalSize_bytes repo : totalSize repo = ofZ (bytes (edges repo)).
Proof. unfold totalSize. rewrite foldl_add_ofZ. reflexivity. Qed.

Lemma div_ofZ_zero (s : Z) :
  div (ofZ s) (ofZ 0)
  = match (s ?= 0)%Z with Eq => NaN | Lt => NegInf | Gt => PosInf end.
Proof.
  unfold div, ofZ, ofQ.
  destruct (decide (Q2Qc (inject_Z 0) = 0%Qc)) as [_|Hne].
  - unfold inf_of_sign, sgn, Qccompare.
    replace (Qcompare (Q2Qc (inject_Z s)) 0%Qc) with (s ?= 0)%Z;
      [reflexivity|].
    simpl. rewrite Qred_correct. unfold Qcompare; simpl.
    rewrite Z.mul_1_r. reflexivity.
  - exfalso. apply Hne. apply Qc_is_canon. reflexivity.
Qed.

Lemma bytes_nonneg_zero (es : list LanguageEdge) :
  Forall (fun e => 0 <= edge_size e) es -> bytes es = 0 ->
  Forall (fun e => edge_size e = 0) es.
Proof.
  induction 1 as [|e es He Hes IH]; intros Hsum; constructor.
  - assert (0 <= bytes es).
    { clear -Hes. induction Hes; unfold bytes in *; simpl in *; lia. }
    unfold bytes in *; simpl in *. lia.
  - apply IH. assert (0 <= bytes es).
    { clear -Hes. induction Hes; unfold bytes in *; simpl in *; lia. }
    unfold bytes in *; simpl in *. lia.
Qed.

(** C1, as the code has it.  For a repository with languages whose byte
    sizes add up to zero the division is done all the same: no share is a
    finite number, and when no size is negative every share is NaN. *)
Theorem zero_total_shares_not_finite (repo : RepoNode) :
  edges repo <> [] ->
  totalSize repo = ofZ 0 ->
  normalize repo <> []
  /\ Forall (fun l => isFinite (size l) = false) (normalize repo)
  /\ (Forall (fun e => 0 <= edge_size e) (edges repo) ->
      Forall (fun l => size l = NaN) (normalize repo)).
Proof.
  intros Hne Htot. split; [|split].
  - unfold normalize. destruct (edges repo); [congruence|discriminate].
  - unfold normalize. apply Forall_fmap, Forall_forall. intros e _.
    unfold compose, share; cbn [size]. rewrite Htot, div_ofZ_zero.
    destruct (edge_size e ?= 0)%Z; reflexivity.
  - intros Hpos. unfold normalize. apply Forall_fmap.
    rewrite totalSize_bytes in Htot. apply ofZ_inj in Htot.
    pose proof (bytes_nonneg_zero _ Hpos Htot) as Hz.
    eapply Forall_impl; [exact Hz|]. intros e He.
    unfold compose, share; cbn [size].
    rewrite totalSize_bytes, Htot, div_ofZ_zero, He. reflexivity.
Qed.

Lemma foldl_add_shares (T : Z) (es : list LanguageEdge) (a : Q) :
  T <> 0 ->
  foldl add (ofQ a) (map (fun e => div (ofZ (edge_size e)) (ofZ T)) es)
  = ofQ (a + inject_Z (bytes es) / inject_Z T).
Proof.
  intros HT. revert a. induction es as [|e es IH]; intros a; cbn [foldl map].
  - apply ofQ_eq. unfold bytes; simpl. unfold Qdiv. rewrite Qmult_0_l. ring.
  - unfold ofZ at 1 2. rewrite ofQ_div.
    + rewrite ofQ_add, IH. apply ofQ_eq.
      replace (bytes (e :: es)) with (edge_size e + bytes es) by reflexivity.
      rewrite inject_Z_plus. field.
      intros Hz. apply HT. unfold Qeq in Hz; simpl in Hz. lia.
    + intros Hz. apply HT. unfold Qeq in Hz; simpl in Hz. lia.
Qed.

(** C7.  For a repository with languages and a positive total, the shares
    the fetcher computes add up to exactly [1]. *)
Theorem shares_sum_to_one (repo : RepoNode) :
  edges repo <> [] ->
  lt (ofZ 0) (totalSize repo) = true ->
  foldl add (ofZ 0) (map size (normalize repo)) = ofZ 1.
Proof.
  intros _ Hpos. rewrite totalSize_bytes in Hpos.
  rewrite lt_ofZ in Hpos. apply bool_decide_eq_true in Hpos.
  unfold normalize. rewrite <- list_fmap_compose.
  rewrite (list_fmap_ext _ (fun e => div (ofZ (edge_size e))
                                      (ofZ (bytes (edges repo)))) (edges repo)).
  2:{ intros i e _. unfold compose, share; cbn [size].
      rewrite totalSize_bytes. reflexivity. }
  unfold ofZ at 1. rewrite foldl_add_shares by lia.
  apply ofQ_eq. field. intros Hz. unfold Qeq in Hz; simpl in Hz. lia.
Qed.

(** With an error payload the first check throws, whatever the error's
    type is. *)
Lemma error_payload_raises_plain_error (username : string)
    (exclude_repo : list string) (res : Response) (e : GraphQLError)
    (errs : list GraphQLError) :
  truthy (Some username) = true ->
  errors res = Some (e :: errs) ->
  fetchTopLanguages wrapTextMultiline username exclude_repo (inr res)
  = inl (Error (or_else (err_message e) "Could not fetch user")).
Proof.
  intros Hu He. unfold fetchTopLanguages. rewrite Hu. simpl. rewrite He.
  reflexivity.
Qed.

(** The typed errors of the second check are never what the fetcher
    throws, unless the transport threw one itself. *)
Lemma fetch_never_typed (username : string) (exclude_repo : list string)
    (res : Response) (m : option string) (t : error_type) :
  fetchTopLanguages wrapTextMultiline username exclude_repo (inr res)
  <> inl (CustomError m t).
Proof.
  unfold fetchTopLanguages, graphql_errors.
  destruct (truthy (Some username)); simpl; [|discriminate].
  destruct (errors res) as [[|e errs]|]; simpl; discriminate.
Qed.

(** C2, at the response for a login that does not exist: the fetcher throws
    a plain [Error] carrying the upstream message, where the second check,
    had it been reached, would throw the typed user-not-found error. *)
Theorem not_found_raises_plain_error :
  fetchTopLanguages wrapTextMultiline "ghost" [] (inr Samples.ghost_response)
  = inl (Error "Could not resolve to a User with the login of 'ghost'.")
  /\ graphql_errors wrapTextMultiline Samples.ghost_response
     = inl (CustomError
              (Some "Could not resolve to a User with the login of 'ghost'.")
              USER_NOT_FOUND).
Proof. split; reflexivity. Qed.

End Fetcher_facts.

(** C1 as stated fails: a repository whose single language has no bytes
    gets the share NaN, not [0]; the fetcher returns it, the merge pass keeps
    it as the language's size and the strip gets a rectangle of width NaN. *)
Lemma zero_total_share_is_NaN :
  let repo := Samples.empty_file_repo in
  edges repo <> []
  /\ totalSize repo = ofZ 0
  /\ map size (normalize repo) = [NaN]
  /\ ~ Forall (fun l => size l = ofZ 0) (normalize repo)
  /\ fetchTopLanguages Samples.no_wrap "octocat" []
       (inr (Samples.ok_response [repo]))
     = inr [[ {| name := Some "Markdown"; color := Some "#083fa1";
                 size := NaN; repo_name := "notes" |} ]]
  /\ merged_size (Some "Markdown") (Some "#083fa1") (merge [normalize repo])
     = Some NaN
  /\ map seg_width
       (@compactProgressBar Samples.plain_runtime (normalize repo)
          (ofZ 300) (ofZ 0))
     = [NaN].
Proof.
  cbv zeta. split; [discriminate|]. split.
  { apply (bool_decide_unpack _). vm_compute. exact I. }
  split; [vm_compute; reflexivity|].
  split; [|repeat split; vm_compute; reflexivity].
  intros Hall. apply Forall_inv in Hall. vm_compute in Hall. discriminate.
Qed.

Lemma zero_total_shares_not_finite_witness :
  edges Samples.empty_file_repo <> []
  /\ totalSize Samples.empty_file_repo = ofZ 0
  /\ normalize Samples.empty_file_repo <> []
  /\ Forall (fun l => isFinite (size l) = false)
       (normalize Samples.empty_file_repo)
  /\ (Forall (fun e => 0 <= edge_size e) (edges Samples.empty_file_repo) ->
      Forall (fun l => size l = NaN) (normalize Samples.empty_file_repo)).
Proof.
  assert (Hne : edges Samples.empty_file_repo <> []) by discriminate.
  assert (Htot : totalSize Samples.empty_file_repo = ofZ 0).
  { apply (bool_decide_unpack _). vm_compute. exact I. }
  split; [exact Hne|]. split; [exact Htot|].
  exact (zero_total_shares_not_finite Samples.empty_file_repo Hne Htot).
Defined.

Lemma shares_sum_to_one_witness :
  edges Samples.alpha <> []
  /\ lt (ofZ 0) (totalSize Samples.alpha) = true
  /\ foldl add (ofZ 0) (map size (normalize Samples.alpha)) = ofZ 1.
Proof.
  assert (Hne : edges Samples.alpha <> []) by discriminate.
  assert (Hpos : lt (ofZ 0) (totalSize Samples.alpha) = true)
    by (vm_compute; reflexivity).
  split; [exact Hne|]. split; [exact Hpos|].
  exact (shares_sum_to_one Samples.alpha Hne Hpos).
Defined.

(** ** Sorting *)

Section Sort_facts.
Context {A : Type} (cmp : A -> A -> number).

Lemma sort_insert_perm (x : A) (l : list A) : sort_insert cmp x l ≡ₚ x :: l.
Proof.
  induction l as [|y r IH]; cbn [sort_insert]; [reflexivity|].
  destruct (lt (ofZ 0) (cmp x y)); [|reflexivity].
  rewrite IH. apply Permutation_swap.
Qed.

Lemma Array_sort_perm (l : list A) : Array_sort cmp l ≡ₚ l.
Proof.
  induction l as [|x l IH]; cbn [Array_sort foldr]; [reflexivity|].
  fold (Array_sort cmp l). rewrite sort_insert_perm, IH. reflexivity.
Qed.


(** The comparator is consistent on the elements that satisfy [ok]. *)
Variable ok : A -> Prop.
Hypothesis stays_trans :
  forall x y z, ok x -> ok y -> ok z ->
    stays cmp x y -> stays cmp y z -> stays cmp x z.
Hypothesis stays_total :
  forall x y, ok x -> ok y -> ~ stays cmp x y -> stays cmp y x.

Lemma stays_all (x y : A) (r : list A) :
  Forall ok (x :: y :: r) -> stays cmp x y ->
  StronglySorted (stays cmp) (y :: r) ->
  Forall (stays cmp x) (y :: r).
Proof.
  intros Hok Hxy Hs. apply StronglySorted_inv in Hs as [_ Hyr].
  apply Forall_cons_1 in Hok as [Hx Hok]. apply Forall_cons_1 in Hok as [Hy Hr].
  constructor; [exact Hxy|].
  rewrite Forall_forall in Hyr, Hr. apply Forall_forall. intros z Hz.
  apply (stays_trans x y z); auto.
Qed.

Lemma sort_insert_sorted (x : A) (l : list A) :
  Forall ok (x :: l) -> StronglySorted (stays cmp) l ->
  StronglySorted (stays cmp) (sort_insert cmp x l).
Proof.
  induction l as [|y r IH]; intros Hok Hs; cbn [sort_insert].
  - repeat constructor.
  - destruct (lt (ofZ 0) (cmp x y)) eqn:Hc.
    + pose proof Hs as Hs'. apply StronglySorted_inv in Hs' as [Hr Hyr].
      apply Forall_cons_1 in Hok as [Hx Hok].
      apply Forall_cons_1 in Hok as [Hy Hokr].
      constructor.
      * apply IH; [constructor; assumption|exact Hr].
      * rewrite sort_insert_perm. constructor; [|exact Hyr].
        apply stays_total; [assumption..|]. unfold stays. congruence.
    + constructor; [exact Hs|]. apply stays_all; assumption.
Qed.

Lemma Array_sort_sorted (l : list A) :
  Forall ok l -> StronglySorted (stays cmp) (Array_sort cmp l).
Proof.
  induction l as [|x l IH]; intros Hok; cbn [Array_sort foldr].
  - constructor.
  - fold (Array_sort cmp l). apply Forall_cons_1 in Hok as [Hx Hok].
    apply sort_insert_sorted; [|apply IH; exact Hok].
    constructor; [exact Hx|]. rewrite Array_sort_perm. exact Hok.
Qed.

Section Filter.
Context (P : A -> Prop) `{!forall x, Decision (P x)}.




End Filter.
End Sort_facts.

(** ** The hide list and the count *)

Section Selection_facts.

Lemma hide_fold_lookup (h : list string) (m : gmap string bool) (k : string) :
  foldl (fun m langName => <[lowercaseTrim langName := true]> m) m h !! k
  = if decide (k ∈ map lowercaseTrim h) then Some true else m !! k.
Proof.
  revert m. induction h as [|a h IH]; intros m; cbn [foldl map].
  - destruct (decide (k ∈ [])) as [Hin|_]; [|reflexivity].
    apply elem_of_nil in Hin. destruct Hin.
  - rewrite IH. destruct (decide (k ∈ map lowercaseTrim h)) as [Hin|Hnin].
    + rewrite decide_True by (right; exact Hin). reflexivity.
    + destruct (decide (k = lowercaseTrim a)) as [->|Hne].
      * rewrite decide_True by left. apply lookup_insert_eq.
      * rewrite decide_False.
        -- apply lookup_insert_ne. congruence.
        -- intros Hin. apply elem_of_cons in Hin as [?|?]; contradiction.
Qed.

Lemma langsToHide_lookup (hide : option (list string)) (k : string) :
  langsToHide_of hide !! k
  = if decide (k ∈ map lowercaseTrim (default [] hide)) then Some true
    else None.
Proof.
  destruct hide as [h|]; cbn [langsToHide_of default].
  - rewrite hide_fold_lookup, lookup_empty. reflexivity.
  - rewrite lookup_empty. destruct (decide _) as [Hin|_]; [|reflexivity].
    apply elem_of_nil in Hin. destruct Hin.
Qed.

(** A hide-list entry hides every name equal to it up to case and
    surrounding white space. *)
Lemma hidden_by_entry (hide : option (list string)) (h n : string) :
  h ∈ default [] hide -> lowercaseTrim n = lowercaseTrim h ->
  prop_truthy (langsToHide_of hide) (lowercaseTrim n) = true.
Proof.
  intros Hin Heq. unfold prop_truthy. rewrite langsToHide_lookup, Heq.
  rewrite decide_True; [reflexivity|].
  apply list_elem_of_fmap. exists h. split; [reflexivity|exact Hin].
Qed.

(** What the filter keeps, spelled out. *)
Lemma visible_iff (hide : option (list string)) (lang : Lang) :
  visible (langsToHide_of hide) lang = true <->
  exists n, name lang = Some n
    /\ (lowercaseTrim n ∉ map lowercaseTrim (default [] hide))
    /\ (lowercaseTrim n ∉ Object_prototype_keys).
Proof.
  unfold visible, prop_truthy. destruct (name lang) as [n|].
  - rewrite langsToHide_lookup.
    destruct (decide (lowercaseTrim n ∈ map lowercaseTrim (default [] hide)))
      as [Hin|Hnin]; cbn [negb].
    + split; [discriminate|]. intros (n' & Heq & Hn & _). congruence.
    + rewrite negb_true_iff, bool_decide_eq_false. split.
      * intros Hp. exists n. auto.
      * intros (n' & Heq & _ & Hp). congruence.
  - split; [discriminate|]. intros (n & Heq & _). discriminate.
Qed.

Lemma filter_result_named (m : gmap string bool) (l : list Lang) :
  Forall (fun lang => is_Some (name lang)) l ->
  filter_result (not_hidden m) l
  = inr (filter (fun lang => visible m lang = true) l).
Proof.
  induction 1 as [|x l Hx _ IH]; [reflexivity|].
  cbn [filter_result]. rewrite IH. rewrite filter_cons.
  destruct (name x) as [n|] eqn:Hn; [|destruct Hx; discriminate].
  assert (Hvis : visible m x = negb (prop_truthy m (lowercaseTrim n))).
  { unfold visible. rewrite Hn. reflexivity. }
  rewrite Hvis. unfold not_hidden. rewrite Hn. cbn [bind ret].
  destruct (negb (prop_truthy m (lowercaseTrim n))) eqn:Hv.
  - rewrite decide_True by reflexivity. reflexivity.
  - rewrite decide_False by discriminate. reflexivity.
Qed.

Lemma parseInt_integer (s : string) :
  parseInt s = NaN \/ exists z, parseInt s = ofZ z.
Proof.
  unfold parseInt. destruct (read_sign (trimStart s)) as [minus s1].
  destruct (read_integer s1) as [[v seen] rest].
  destruct seen; [right|left; reflexivity].
  unfold signed. destruct minus.
  - exists (- Z.of_N v). apply ofQ_neg_Z.
  - exists (Z.of_N v). reflexivity.
Qed.

Lemma clampValue_integer (z : Z) :
  clampValue (ofZ z) (ofZ 1) (ofZ 10) = ofZ (Z.max 1 (Z.min z 10)).
Proof.
  unfold clampValue. change (ofZ z) with (Fin (Q2Qc (inject_Z z))) at 1.
  cbv iota. rewrite !lt_ofZ.
  destruct (bool_decide_reflect (z < 1)); [f_equal; lia|].
  destruct (bool_decide_reflect (10 < z)); f_equal; lia.
Qed.

Lemma langsCount_range (s : string) :
  exists k, clampValue (parseInt s) (ofZ 1) (ofZ 10) = ofZ k /\ 1 <= k <= 10.
Proof.
  destruct (parseInt_integer s) as [->|[z ->]].
  - exists 1. split; [reflexivity|lia].
  - exists (Z.max 1 (Z.min z 10)). split; [apply clampValue_integer|lia].
Qed.

Lemma Array_slice0_ofZ {A : Type} (l : list A) (k : Z) :
  0 <= k -> Array_slice0 l (ofZ k) = take (Z.to_nat k) l.
Proof.
  intros Hk. unfold Array_slice0, slice_end, ofZ, ofQ.
  rewrite this_ofZ. cbn [Qnum Qden inject_Z]. rewrite Z.quot_1_r.
  destruct (Z.ltb_spec k 0) as [?|_]; [lia|].
  destruct (Nat.le_ge_cases (Z.to_nat k) (length l)) as [Hle|Hge].
  - rewrite Nat.min_l by exact Hle. reflexivity.
  - rewrite Nat.min_r by exact Hge. rewrite !take_ge; [reflexivity|lia..].
Qed.

End Selection_facts.

(** ** The comparator of the selection *)

Section Size_order.

Lemma stays_by_size (x y : Lang) (a b : Qc) :
  size x = Fin a -> size y = Fin b ->
  stays by_size_desc x y <-> (b <= a)%Qc.
Proof.
  intros Hx Hy. unfold stays, by_size_desc, sub. rewrite Hx, Hy.
  cbn [neg add]. unfold lt, ofZ, ofQ.
  rewrite bool_decide_eq_false. rewrite <- Qclt_minus_iff. split.
  - apply Qcnot_lt_le.
  - apply Qcle_not_lt.
Qed.

Lemma finite_size_inv (lang : Lang) :
  finite_size lang -> exists q, size lang = Fin q.
Proof.
  unfold finite_size. destruct (size lang) as [q| | |]; try discriminate.
  exists q. reflexivity.
Qed.

Lemma by_size_trans (x y z : Lang) :
  finite_size x -> finite_size y -> finite_size z ->
  stays by_size_desc x y -> stays by_size_desc y z -> stays by_size_desc x z.
Proof.
  intros [a Ha]%finite_size_inv [b Hb]%finite_size_inv [c Hc]%finite_size_inv.
  rewrite (stays_by_size x y a b), (stays_by_size y z b c),
    (stays_by_size x z a c) by assumption.
  intros H1 H2. apply (Qcle_trans _ _ _ H2 H1).
Qed.

Lemma by_size_total (x y : Lang) :
  finite_size x -> finite_size y ->
  ~ stays by_size_desc x y -> stays by_size_desc y x.
Proof.
  intros [a Ha]%finite_size_inv [b Hb]%finite_size_inv.
  rewrite (stays_by_size x y a b), (stays_by_size y x b a) by assumption.
  intros Hn. apply Qcnot_le_lt in Hn. apply Qclt_le_weak. exact Hn.
Qed.

End Size_order.

(** ** The selection: [useLanguages] *)

Section Selection.

Lemma sorted_names (l : list Lang) :
  Forall (fun lang => is_Some (name lang)) l ->
  Forall (fun lang => is_Some (name lang)) (Array_sort by_size_desc l).
Proof. intros Hl. rewrite Array_sort_perm. exact Hl. Qed.

(** C4.  For languages that have names, [useLanguages] returns a selection
    of at most [clampValue(parseInt(langs_count), 1, 10)] entries, a count
    between 1 and 10, and no selected name equals a hide-list entry once
    both are lower-cased and trimmed. *)
Theorem useLanguages_bounded_and_filtered (topLangs : list (string * Lang))
    (hide : option (list string)) (langs_count : string) :
  Forall (fun lang => is_Some (name lang)) (Object_values topLangs) ->
  exists (sel : Selection) (k : Z),
    useLanguages topLangs hide langs_count = inr sel
    /\ clampValue (parseInt langs_count) (ofZ 1) (ofZ 10) = ofZ k
    /\ 1 <= k <= 10
    /\ Z.of_nat (length (langs sel)) <= k
    /\ forall lang n h,
         lang ∈ langs sel -> name lang = Some n -> h ∈ default [] hide ->
         lowercaseTrim n <> lowercaseTrim h.
Proof.
  intros Hnames. destruct (langsCount_range langs_count) as (k & Hk & Hrange).
  unfold useLanguages.
  rewrite filter_result_named by (apply sorted_names, Hnames).
  cbn [bind ret]. rewrite Hk. rewrite Array_slice0_ofZ by lia.
  eexists _, k. split; [reflexivity|]. split; [reflexivity|].
  split; [exact Hrange|].
  cbn [langs]. split.
  - pose proof (firstn_le_length (Z.to_nat k)
      (filter (fun lang => visible (langsToHide_of hide) lang = true)
         (Array_sort by_size_desc (Object_values topLangs)))). lia.
  - intros lang n h Hin Hn Hh Heq.
    apply elem_of_take in Hin as (i & Hin & _).
    apply list_elem_of_lookup_2 in Hin.
    apply list_elem_of_filter in Hin as [Hvis _].
    unfold visible in Hvis. rewrite Hn in Hvis.
    rewrite (hidden_by_entry hide h n Hh Heq) in Hvis. discriminate.
Qed.

End Selection.

Lemma useLanguages_bounded_and_filtered_witness :
  Forall (fun lang => is_Some (name lang)) (Object_values Samples.scenario)
  /\ exists (sel : Selection) (k : Z),
       useLanguages Samples.scenario (Some [" js "%string]) "12" = inr sel
       /\ clampValue (parseInt "12") (ofZ 1) (ofZ 10) = ofZ k
       /\ 1 <= k <= 10
       /\ Z.of_nat (length (langs sel)) <= k
       /\ forall lang n h,
            lang ∈ langs sel -> name lang = Some n ->
            h ∈ default [] (Some [" js "%string]) ->
            lowercaseTrim n <> lowercaseTrim h.
Proof.
  assert (Hnames : Forall (fun lang => is_Some (name lang))
                     (Object_values Samples.scenario)).
  { repeat constructor; eexists; reflexivity. }
  split; [exact Hnames|].
  exact (useLanguages_bounded_and_filtered Samples.scenario
           (Some [" js "%string]) "12" Hnames).
Defined.

(** The scenario of the spec with [hide = ["JS"]]: the selection is TS and
    Go, and with a count of one TS alone, promoted to the first place. *)
Example hide_JS_selects_TS_Go :
  sum_map id langs (useLanguages Samples.scenario (Some ["JS"%string]) "5")
  = inr [ Samples.lang "TS" "#3178c6" (7 # 10);
          Samples.lang "Go" "#00ADD8" (1 # 2) ]
  /\ sum_map id langs
       (useLanguages Samples.scenario (Some ["JS"%string]) "1")
     = inr [ Samples.lang "TS" "#3178c6" (7 # 10) ].
Proof. split; vm_compute; reflexivity. Qed.

(** ** The merge pass *)

Section Merge_facts.

Lemma add_0_l x : add (ofZ 0) x = x.
Proof.
  destruct x; try reflexivity. unfold ofZ, ofQ; simpl. f_equal.
  apply Qcplus_0_l.
Qed.

Lemma foldl_add_from (a : number) (l : list number) :
  foldl add a l = add a (total l).
Proof.
  unfold total. revert a. induction l as [|x l IH]; intros a; cbn [foldl].
  - rewrite add_comm. symmetry. apply add_0_l.
  - rewrite IH, (IH (add (ofZ 0) x)), add_0_l. symmetry. apply add_assoc.
Qed.

Lemma total_app (l k : list number) : total (l ++ k) = add (total l) (total k).
Proof. unfold total at 1. rewrite foldl_app. apply foldl_add_from. Qed.

Lemma same_lang_iff (lang x : Lang) :
  same_lang lang x = true <-> color x = color lang /\ name x = name lang.
Proof.
  unfold same_lang. rewrite andb_true_iff, !bool_decide_eq_true. reflexivity.
Qed.

Lemma merge_step_into (all : list Lang) (lang : Lang) :
  skipped lang = false -> merge_step all lang = merge_into lang all.
Proof.
  intros Hs. unfold merge_step. rewrite Hs.
  induction all as [|x r IH]; [reflexivity|].
  cbn [list_find merge_into]. destruct (same_lang lang x) eqn:Hx.
  - rewrite decide_True by reflexivity. reflexivity.
  - rewrite decide_False by discriminate.
    destruct (list_find (fun x => same_lang lang x = true) r) as [[i found]|];
      cbn [fmap option_fmap option_map prod_map fst snd id] in *.
    + cbn [insert list_insert]. f_equal. exact IH.
    + cbn [app]. f_equal. exact IH.
Qed.

Lemma merged_size_cons (n c : option string) (x : Lang) (r : list Lang) :
  merged_size n c (x :: r)
  = if decide (color x = c /\ name x = n) then Some (size x)
    else merged_size n c r.
Proof.
  unfold merged_size. cbn [list_find]. destruct (decide _); [reflexivity|].
  destruct (list_find _ r) as [[i y]|]; reflexivity.
Qed.

Lemma merged_size_into (n c : option string) (lang : Lang) (all : list Lang) :
  merged_size n c (merge_into lang all)
  = if decide (color lang = c /\ name lang = n)
    then accumulated (merged_size n c all) [size lang]
    else merged_size n c all.
Proof.
  induction all as [|x r IH]; cbn [merge_into].
  - rewrite merged_size_cons. unfold accumulated, total; cbn [foldl].
    rewrite add_0_l. reflexivity.
  - destruct (same_lang lang x) eqn:Hx.
    + apply same_lang_iff in Hx as [Hc Hn].
      rewrite !merged_size_cons. cbn [color name size set_size].
      rewrite Hc, Hn. destruct (decide _); [|reflexivity].
      unfold accumulated, total; cbn [foldl]. rewrite add_0_l. reflexivity.
    + rewrite !merged_size_cons, IH.
      destruct (decide (color x = c /\ name x = n)) as [[Hc Hn]|Hne];
        [|reflexivity].
      destruct (decide (color lang = c /\ name lang = n)) as [[Hc' Hn']|];
        [|reflexivity].
      exfalso. assert (same_lang lang x = true); [|congruence].
      apply same_lang_iff. split; congruence.
Qed.

Lemma add_0_r x : add x (ofZ 0) = x.
Proof. rewrite add_comm. apply add_0_l. Qed.

Lemma accumulated_Some (s : number) (l : list number) :
  accumulated (Some s) l = Some (add s (total l)).
Proof. destruct l; reflexivity. Qed.

Lemma accumulated_app (o : option number) (l k : list number) :
  accumulated (accumulated o l) k = accumulated o (l ++ k).
Proof.
  destruct o as [s|].
  - rewrite !accumulated_Some, total_app, add_assoc. reflexivity.
  - destruct l as [|x l]; [reflexivity|].
    change (accumulated None (x :: l)) with (Some (total (x :: l))).
    rewrite accumulated_Some, <- total_app. reflexivity.
Qed.

Lemma merged_size_fold (n c : option string) (l acc : list Lang) :
  merged_size n c (foldl merge_step acc l)
  = accumulated (merged_size n c acc) (contributions n c l).
Proof.
  revert acc. induction l as [|lang l IH]; intros acc; cbn [foldl].
  - change (contributions n c []) with (@nil number).
    destruct (merged_size n c acc); [|reflexivity].
    rewrite accumulated_Some. change (total []) with (ofZ 0).
    rewrite add_0_r. reflexivity.
  - rewrite IH. unfold contributions. rewrite filter_cons.
    destruct (skipped lang) eqn:Hs.
    + rewrite decide_False by (intros [? _]; discriminate).
      unfold merge_step. rewrite Hs. reflexivity.
    + rewrite merge_step_into, merged_size_into by exact Hs.
      destruct (decide (color lang = c /\ name lang = n)) as [Hk|Hk].
      * rewrite decide_True by (split; [reflexivity|exact Hk]).
        cbn [map]. rewrite accumulated_app. reflexivity.
      * rewrite decide_False by (intros [_ ?]; contradiction). reflexivity.
Qed.

Lemma merge_from_concat (acc : list Lang) (langs : list (list Lang)) :
  merge_from acc langs = foldl merge_step acc (concat langs).
Proof.
  unfold merge_from. revert acc.
  induction langs as [|r langs IH]; intros acc; cbn [foldl concat];
    [reflexivity|].
  rewrite IH, foldl_app. reflexivity.
Qed.

(** The size kept for a pair is the sum of the shares of the records that
    carry it, and there is no entry when there is none. *)
Lemma merged_size_merge (n c : option string) (langs : list (list Lang)) :
  merged_size n c (merge langs)
  = accumulated None (contributions n c (concat langs)).
Proof.
  unfold merge. rewrite merge_from_concat, merged_size_fold. reflexivity.
Qed.

Lemma contributions_app (n c : option string) (l k : list Lang) :
  contributions n c (l ++ k)
  = (contributions n c l ++ contributions n c k)%list.
Proof. unfold contributions. rewrite filter_app, map_app. reflexivity. Qed.

(** C10.  Merging two repositories in either order leaves the same
    accumulated size for every (name, color) pair. *)
Theorem merge_commutes (A B : list Lang) (n c : option string) :
  merged_size n c (merge [A; B]) = merged_size n c (merge [B; A]).
Proof.
  rewrite !merged_size_merge. cbn [concat]. rewrite !app_nil_r.
  rewrite !contributions_app.
  destruct (contributions n c A) as [|a la] eqn:HA,
           (contributions n c B) as [|b lb] eqn:HB;
    rewrite ?app_nil_r; try reflexivity.
  cbn [accumulated app]. f_equal.
  change (a :: la ++ b :: lb)%list with ((a :: la) ++ (b :: lb))%list.
  change (b :: lb ++ a :: la)%list with ((b :: lb) ++ (a :: la))%list.
  rewrite !total_app. apply add_comm.
Qed.

End Merge_facts.

(** ** The merge pass on the store *)

Section Merge_store.

Lemma find_refs_values (h : gmap loc Lang) (lang : Lang)
    (refs : list loc) (vals : list Lang) :
  point_to h refs vals ->
  match list_find (fun r => same_lang_at h lang r = true) refs,
        list_find (fun x => same_lang lang x = true) vals with
  | Some (i, r), Some (j, v) => i = j /\ h !! r = Some v
  | None, None => True
  | _, _ => False
  end.
Proof.
  induction 1 as [|r v refs vals Hrv _ IH]; cbn [list_find]; [exact I|].
  assert (Hsame : same_lang_at h lang r = same_lang lang v).
  { unfold same_lang_at. rewrite Hrv. reflexivity. }
  destruct (same_lang lang v) eqn:Hv.
  - rewrite !decide_True by assumption. split; [reflexivity|exact Hrv].
  - rewrite !decide_False by congruence.
    destruct (list_find _ refs) as [[i r']|], (list_find _ vals) as [[j v']|];
      cbn [fmap option_fmap option_map prod_map fst snd id]; try exact IH.
    destruct IH as [-> Hr']. split; [reflexivity|exact Hr'].
Qed.

Lemma merge_step_ref_inv (h0 : gmap loc Lang) (st : store) (acc : list Lang)
    (l : loc) (lang : Lang) :
  merge_inv h0 st acc -> h0 !! l = Some lang ->
  merge_inv h0 (merge_step_ref st l) (merge_step acc lang).
Proof.
  intros [Hsrc Hfresh Hnd Hval] Hl. unfold point_to in *.
  assert (Hl' : heap st !! l = Some lang).
  { rewrite Hsrc; [exact Hl|]. apply elem_of_dom. eauto. }
  unfold merge_step_ref, merge_step. rewrite Hl'.
  destruct (skipped lang); [split; assumption|].
  pose proof (find_refs_values (heap st) lang _ _ Hval) as Hfind.
  destruct (list_find _ (allUniqueLangs st)) as [[i f]|] eqn:Hrefs,
           (list_find _ acc) as [[j found]|] eqn:Hvals; try contradiction.
  - destruct Hfind as [<- Hf].
    apply list_find_Some in Hrefs as (Hi & _ & _).
    apply list_find_Some in Hvals as (Hj & _ & _).
    assert (Hfd : f ∉ dom h0).
    { rewrite Forall_forall in Hfresh. apply Hfresh.
      eapply list_elem_of_lookup_2, Hi. }
    split; cbn [heap allUniqueLangs]; [| exact Hfresh | exact Hnd |].
    + intros l' Hl'd. rewrite lookup_alter_ne; [apply Hsrc, Hl'd|].
      intros ->. contradiction.
    + apply Forall2_same_length_lookup. split.
      * rewrite length_insert. eapply Forall2_length, Hval.
      * intros k r v Hr Hv.
        destruct (decide (k = i)) as [->|Hne].
        -- rewrite Hi in Hr. injection Hr as <-.
           rewrite list_lookup_insert_eq in Hv
             by (eapply lookup_lt_Some, Hj).
           injection Hv as <-. rewrite lookup_alter_eq, Hf. reflexivity.
        -- rewrite list_lookup_insert_ne in Hv by congruence.
           rewrite lookup_alter_ne.
           ++ exact (Forall2_lookup_lr _ _ _ _ _ _ Hval Hr Hv).
           ++ intros ->. apply Hne. symmetry.
              eapply NoDup_lookup; [exact Hnd|exact Hi|exact Hr].
  - assert (Hnew : fresh (dom (heap st)) ∉ dom (heap st)) by apply is_fresh.
    assert (Hlive : forall r, r ∈ allUniqueLangs st -> r ∈ dom (heap st)).
    { intros r Hr. apply list_elem_of_lookup_1 in Hr as [k Hk].
      destruct (Forall2_lookup_l _ _ _ _ _ Hval Hk) as (v & _ & Hv).
      apply elem_of_dom. eauto. }
    split; cbn [heap allUniqueLangs].
    + intros l' Hl'd. rewrite lookup_insert_ne; [apply Hsrc, Hl'd|].
      intros Heq. apply Hnew. rewrite Heq. apply elem_of_dom.
      rewrite Hsrc by exact Hl'd. apply elem_of_dom. exact Hl'd.
    + apply Forall_app. split; [exact Hfresh|]. constructor; [|constructor].
      intros Hin. apply Hnew. apply elem_of_dom.
      rewrite Hsrc by exact Hin. apply elem_of_dom. exact Hin.
    + apply NoDup_app. split; [exact Hnd|]. split; [|apply NoDup_singleton].
      intros r Hr Hr'. apply list_elem_of_singleton in Hr' as ->.
      apply Hnew, Hlive, Hr.
    + apply Forall2_app.
      * eapply Forall2_impl; [exact Hval|]. cbn beta.
        intros r v Hrv. rewrite lookup_insert_ne; [exact Hrv|].
        intros <-. apply Hnew. apply elem_of_dom. eauto.
      * constructor; [apply lookup_insert_eq|constructor].
Qed.

Lemma deref_cons (h : gmap loc Lang) (l : loc) (refs : list loc)
    (lang : Lang) :
  h !! l = Some lang -> deref h (l :: refs) = lang :: deref h refs.
Proof.
  intros Hl. unfold deref. cbn [omap list_omap]. rewrite Hl. reflexivity.
Qed.

Lemma merge_repo_inv (h0 : gmap loc Lang) (repo : list loc) (st : store)
    (acc : list Lang) :
  Forall (fun l => is_Some (h0 !! l)) repo -> merge_inv h0 st acc ->
  merge_inv h0 (foldl merge_step_ref st repo)
    (foldl merge_step acc (deref h0 repo)).
Proof.
  intros Hlive. revert st acc.
  induction Hlive as [|l repo [lang Hl] _ IH]; intros st acc Hinv;
    [exact Hinv|].
  rewrite (deref_cons _ _ _ _ Hl). cbn [foldl].
  apply IH, merge_step_ref_inv; assumption.
Qed.

Lemma merge_refs_inv (h0 : gmap loc Lang) (langs : list (list loc)) (st : store)
    (acc : list Lang) :
  Forall (Forall (fun l => is_Some (h0 !! l))) langs -> merge_inv h0 st acc ->
  merge_inv h0 (merge_refs_from st langs) (merge_from acc (map (deref h0) langs)).
Proof.
  intros Hlive. revert st acc. unfold merge_refs_from, merge_from.
  induction Hlive as [|repo langs Hrepo _ IH]; intros st acc Hinv; [exact Hinv|].
  cbn [foldl map]. apply IH, merge_repo_inv; assumption.
Qed.

End Merge_store.

(** On the two repositories of the spec: TS is kept once, in a new object
    holding [1/5 + 1/2], and the two source records of TS keep their own
    shares. *)
Example merge_two_repos :
  let st := merge_refs Samples.two_repos_store Samples.two_repos_refs in
  allUniqueLangs st = [5%positive; 6%positive; 7%positive]
  /\ size <$> heap st !! 6%positive = Some (ofQ (7 # 10))
  /\ size <$> heap st !! 2%positive = Some (ofQ (1 # 5))
  /\ size <$> heap st !! 3%positive = Some (ofQ (1 # 2)).
Proof.
  cbv zeta. split; [vm_compute; reflexivity|].
  repeat split; apply (bool_decide_unpack _); vm_compute; exact I.
Qed.

(** One name under two colors gives two entries. *)
Example same_name_two_colors :
  merge [ [ mkLang (Some "Vue") (Some "#41b883") (ofQ (1 # 2)) "a" ];
          [ mkLang (Some "Vue") (Some "#2c3e50") (ofQ (1 # 4)) "b" ] ]
  = [ mkLang (Some "Vue") (Some "#41b883") (ofQ (1 # 2)) "a";
      mkLang (Some "Vue") (Some "#2c3e50") (ofQ (1 # 4)) "b" ].
Proof. vm_compute. reflexivity. Qed.

(** ** Printing and reading decimals *)

Section Decimal_text.

Lemma digit_val_char (d : N) :
  (d < 10)%N -> digit_val (pretty_N_char d) = Some d.
Proof.
  intros Hd.
  assert (d = 0 \/ d = 1 \/ d = 2 \/ d = 3 \/ d = 4 \/ d = 5 \/ d = 6
          \/ d = 7 \/ d = 8 \/ d = 9)%N as Hcases by lia.
  repeat (destruct Hcases as [->|Hcases]; [reflexivity|]).
  subst d. reflexivity.
Qed.

Lemma pretty_N_go_app (x : N) (s t : string) :
  pretty_N_go x s +:+ t = pretty_N_go x (s +:+ t).
Proof.
  revert s. induction (N.lt_wf_0 x) as [x _ IH]; intros s.
  assert (x = 0 \/ 0 < x)%N as [->|Hx] by lia.
  - rewrite !pretty_N_go_0. reflexivity.
  - rewrite (pretty_N_go_step x s), (pretty_N_go_step x (s +:+ t))
      by exact Hx.
    rewrite IH by (apply N.div_lt; lia). reflexivity.
Qed.

Lemma read_pretty_go (x : N) (s : string) :
  (0 < x)%N ->
  forall acc seen,
    exists acc',
      read_digits digit_val 10 (pretty_N_go x s) acc seen
      = read_digits digit_val 10 s acc' true
      /\ (acc = 0%N -> acc' = x).
Proof.
  revert s. induction (N.lt_wf_0 x) as [x _ IH]; intros s Hx acc seen.
  rewrite pretty_N_go_step by exact Hx.
  destruct (N.eq_0_gt_0_cases (x `div` 10)) as [Hq|Hq].
  - rewrite Hq, pretty_N_go_0. cbn [read_digits].
    rewrite digit_val_char by (apply N.mod_lt; lia).
    eexists. split; [reflexivity|]. intros ->.
    pose proof (N.div_mod x 10). lia.
  - destruct (IH (x `div` 10)%N) with
      (s := String (pretty_N_char (x `mod` 10)) s) (acc := acc) (seen := seen)
      as (acc' & Hread & Hacc); [apply N.div_lt; lia|exact Hq|].
    rewrite Hread. cbn [read_digits].
    rewrite digit_val_char by (apply N.mod_lt; lia).
    eexists. split; [reflexivity|]. intros ->. rewrite Hacc by reflexivity.
    pose proof (N.div_mod x 10). lia.
Qed.

Lemma read_pretty (n : N) (t : string) :
  read_digits digit_val 10 (pretty n +:+ t) 0%N false
  = read_digits digit_val 10 t n true.
Proof.
  unfold pretty, pretty_N. destruct (decide (n = 0%N)) as [->|Hn].
  - reflexivity.
  - rewrite pretty_N_go_app.
    destruct (read_pretty_go n (EmptyString +:+ t)) with (acc := 0%N) (seen := false)
      as (acc' & Hread & Hacc); [lia|].
    rewrite Hread, Hacc by reflexivity. reflexivity.
Qed.

Lemma pretty_go_starts (x : N) (s : string) :
  (0 < x)%N -> starts_number (pretty_N_go x s).
Proof.
  revert s. induction (N.lt_wf_0 x) as [x _ IH]; intros s Hx.
  rewrite pretty_N_go_step by exact Hx.
  destruct (N.eq_0_gt_0_cases (x `div` 10)) as [Hq|Hq].
  - rewrite Hq, pretty_N_go_0. eexists _, _, _. split; [reflexivity|].
    apply digit_val_char, N.mod_lt. lia.
  - apply IH; [apply N.div_lt; lia|exact Hq].
Qed.

Lemma pretty_starts (n : N) (t : string) : starts_number (pretty n +:+ t).
Proof.
  unfold pretty, pretty_N. destruct (decide (n = 0%N)) as [->|Hn].
  - eexists _, _, _. split; reflexivity.
  - rewrite pretty_N_go_app. apply pretty_go_starts. lia.
Qed.

End Decimal_text.

Section Fixed_text.

Lemma digit_first (c : ascii) (d : N) :
  digit_val c = Some d ->
  Ascii.is_space c = false /\ c <> "-"%char /\ c <> "+"%char /\ c <> "I"%char
  /\ c <> "."%char.
Proof.
  destruct c as [[] [] [] [] [] [] [] []]; cbn; intros Hd; try discriminate;
    repeat split; discriminate.
Qed.

Lemma parse_number_start (s : string) :
  starts_number s ->
  trimStart s = s /\ read_sign s = (false, s)
  /\ String.prefix "Infinity" s = false.
Proof.
  intros (c & r & d & -> & Hd).
  destruct (digit_first c d Hd) as (Hsp & Hm & Hp & HI & _).
  split; [|split].
  - cbn [trimStart]. rewrite Hsp. reflexivity.
  - unfold read_sign.
    destruct c as [[] [] [] [] [] [] [] []]; try reflexivity; congruence.
  - cbn [String.prefix]. destruct (ascii_dec "I" c) as [<-|_]; [congruence|].
    reflexivity.
Qed.

(** Reading a decimal with two places back. *)
Lemma parseFloat_fixed (minus : bool) (n : N) :
  parseFloat
    ((if minus then "-" else EmptyString)
       +:+ pretty (n / 100)%N +:+ "."
       +:+ digit_char ((n / 10) mod 10)%N +:+ digit_char (n mod 10)%N)
  = signed minus (inject_Z (Z.of_N n) / inject_Z 100).
Proof.
  set (frac := digit_char ((n / 10) mod 10)%N +:+ digit_char (n mod 10)%N).
  set (body := pretty (n / 100)%N +:+ "." +:+ frac).
  assert (Hstart : starts_number body) by apply pretty_starts.
  destruct (parse_number_start body Hstart) as (Htrim & Hsign & Hinf).
  assert (Hparse :
    let '(m, s1) := (minus, body) in
    (if String.prefix "Infinity" s1 then (if m then NegInf else PosInf)
     else
       let '(ip, seen_i, s2) := read_digits digit_val 10 s1 0%N false in
       let '(fp, seen_f, nf, s3) :=
         match s2 with
         | String "."%char r =>
             let '(f, seen, r') := read_digits digit_val 10 r 0%N false in
             (f, seen, count_digits r, r')
         | _ => (0%N, false, O, s2)
         end in
       if seen_i || seen_f then
         let mant := (inject_Z (Z.of_N ip)
                      + inject_Z (Z.of_N fp) / inject_Z (10 ^ Z.of_nat nf))%Q in
         signed m (mant * Qpower (inject_Z 10) (read_exponent s3))%Q
       else NaN)
    = signed minus (inject_Z (Z.of_N n) / inject_Z 100)).
  { cbv beta iota zeta. rewrite Hinf. unfold body at 1. rewrite read_pretty.
    change ("." +:+ frac) with (String "."%char frac).
    cbn [read_digits digit_val fmap option_fmap option_map Ascii.is_nat].
    unfold frac, digit_char.
    change (String ?a EmptyString +:+ ?s) with (String a s).
    cbn [read_digits count_digits].
    rewrite !digit_val_char by (apply N.mod_lt; lia).
    cbn [read_digits count_digits read_exponent orb].
    unfold signed. apply ofQ_eq.
    assert (Hn : (n = 100 * (n / 100) + (10 * ((n / 10) mod 10) + n mod 10))%N).
    { pose proof (N.div_mod n 10 ltac:(lia)).
      pose proof (N.div_mod (n / 10) 10 ltac:(lia)).
      assert (n / 10 / 10 = n / 100)%N by (rewrite N.Div0.div_div; reflexivity).
      lia. }
    clear -Hn.
    set (a := (n / 100)%N) in *. set (d1 := ((n / 10) mod 10)%N) in *.
    set (d2 := (n mod 10)%N) in *. clearbody a d1 d2. subst n.
    change (inject_Z 10 ^ 0)%Q with 1%Q.
    change (10 ^ Z.of_nat 2) with 100.
    assert (Hmant :
      (inject_Z (Z.of_N a)
       + inject_Z (Z.of_N ((0 * 10 + d1) * 10 + d2)) / inject_Z 100) * 1
      == inject_Z (Z.of_N (100 * a + (10 * d1 + d2))) / inject_Z 100).
    { unfold Qeq, Qdiv, Qmult, Qplus, Qinv, inject_Z. simpl. lia. }
    destruct minus; rewrite Hmant; reflexivity. }
  unfold parseFloat.
  assert (Htext : (if minus then "-" else EmptyString) +:+ body
                  = if minus then String "-"%char body else body).
  { destruct minus; reflexivity. }
  fold frac. fold body. rewrite Htext. destruct minus.
  - cbn [trimStart Ascii.is_space read_sign]. exact Hparse.
  - rewrite Htrim, Hsign. exact Hparse.
Qed.

End Fixed_text.

Section Rounding.
Context `{Runtime}.
Open Scope Q_scope.

Lemma nearest_hundredth_close (a : Q) :
  0 <= a ->
  Qabs (inject_Z (Z.of_N (nearest_hundredth a)) / inject_Z 100 - a) <= 1 # 200.
Proof.
  intros Ha. unfold nearest_hundredth.
  set (y := a * inject_Z 100 + (1 # 2)).
  pose proof (Qfloor_le y) as Hlo. pose proof (Qlt_floor y) as Hhi.
  assert (Hf : (0 <= Qfloor y)%Z).
  { change 0%Z with (Qfloor 0). apply Qfloor_resp_le. unfold y.
    change (inject_Z 100) with (100 # 1). lra. }
  rewrite Z2N.id by exact Hf. rewrite inject_Z_plus in Hhi.
  change (inject_Z 1) with 1%Q in Hhi.
  change (inject_Z 100) with (100 # 1) in *.
  apply Qabs_Qle_condition.
  generalize dependent (inject_Z (Qfloor y)). intros f Hlo Hhi.
  unfold y in Hlo, Hhi. unfold Qdiv. change (/ (100 # 1)) with (1 # 100).
  split; lra.
Qed.

(** The text [toFixed(2)] writes for a value below [10^21] reads back as
    the value rounded to hundredths. *)
Lemma parseFloat_toFixed2 (x : Q) :
  Qabs x < inject_Z (10 ^ 21) ->
  exists p : Q,
    parseFloat (Number_toFixed2 (ofQ x)) = ofQ p
    /\ Qabs (p - x) <= 1 # 200
    /\ (0 <= x -> 0 <= p).
Proof.
  intros Hx. unfold Number_toFixed2, ofQ.
  assert (Hred : this (Q2Qc x) == x) by apply Qred_correct.
  destruct (Qle_bool (inject_Z (10 ^ 21)) (Qabs (Q2Qc x))) eqn:Hbig.
  { apply Qle_bool_iff in Hbig. rewrite Hred in Hbig. lra. }
  set (n := nearest_hundredth (Qabs (Q2Qc x))).
  pose proof (nearest_hundredth_close (Qabs (Q2Qc x)) (Qabs_nonneg _)) as Hn.
  fold n in Hn. rewrite Hred in Hn.
  assert (Hp : 0 <= inject_Z (Z.of_N n) / inject_Z 100).
  { apply Qle_shift_div_l; [reflexivity|]. rewrite Qmult_0_l.
    change 0%Q with (inject_Z 0). rewrite <- Zle_Qle. lia. }
  destruct (Qlt_le_dec (Q2Qc x) 0) as [Hneg|Hpos].
  - rewrite (parseFloat_fixed true n). unfold signed.
    eexists. split; [reflexivity|].
    rewrite Hred in Hneg. split; [|lra].
    rewrite (Qabs_neg x) in Hn by lra.
    apply Qabs_Qle_condition in Hn. apply Qabs_Qle_condition. lra.
  - rewrite (parseFloat_fixed false n). unfold signed.
    eexists. split; [reflexivity|].
    rewrite Hred in Hpos. split; [|intros _; exact Hp].
    rewrite (Qabs_pos x) in Hn by exact Hpos. exact Hn.
Qed.

End Rounding.

(** ** The compact strip *)

Section Compact_strip.
Context `{Runtime}.
Open Scope Q_scope.

Lemma total_ofQ (l : list Q) : total (map ofQ l) = ofQ (Qsum l).
Proof.
  unfold total. change (ofZ 0) with (ofQ 0).
  assert (Hgen : forall a, foldl add (ofQ a) (map ofQ l) = ofQ (a + Qsum l)).
  { induction l as [|x l IH]; intros a; cbn [foldl map].
    - apply ofQ_eq. unfold Qsum; cbn [foldr]. lra.
    - rewrite ofQ_add, IH. apply ofQ_eq. unfold Qsum; cbn [foldr]. lra. }
  rewrite Hgen. apply ofQ_eq. lra.
Qed.



Lemma percentage_rounds (lang : Lang) (s w : Q) :
  size lang = ofQ s -> 0 <= s <= 1 -> 0 <= w < inject_Z (10 ^ 21) ->
  exists p : Q, percentage lang (ofQ w) = ofQ p
                /\ Qabs (p - s * w) <= 1 # 200 /\ 0 <= p.
Proof.
  intros Hs [Hs0 Hs1] [Hw0 Hw1]. unfold percentage. rewrite Hs, ofQ_mul.
  assert (Hsw : 0 <= s * w) by (apply Qmult_le_0_compat; assumption).
  assert (Hsw' : s * w <= w).
  { rewrite <- (Qmult_1_l w) at 2. apply Qmult_le_compat_r; assumption. }
  destruct (parseFloat_toFixed2 (s * w)) as (p & Hp & Hclose & Hpos).
  { rewrite Qabs_pos by exact Hsw. lra. }
  exists p. split; [exact Hp|]. split; [exact Hclose|]. apply Hpos, Hsw.
Qed.

Lemma compactProgressBar_lookup (langs : list Lang) (W off : number) (i : nat)
    (seg : Segment) :
  compactProgressBar langs W off !! i = Some seg ->
  exists lang,
    langs !! i = Some lang
    /\ seg_x seg = foldl add off (take i (map (fun l => percentage l W) langs))
    /\ seg_width seg = progress (percentage lang W).
Proof.
  revert off i. induction langs as [|lang langs IH]; intros off i Hseg;
    cbn [compactProgressBar] in Hseg; [discriminate|].
  destruct i as [|i].
  - injection Hseg as <-. exists lang. repeat split.
  - cbn [lookup list_lookup] in Hseg. apply IH in Hseg as (l & Hl & Hx & Hw).
    exists l. split; [exact Hl|]. split; [|exact Hw].
    rewrite Hx. reflexivity.
Qed.

Lemma compactProgressBar_length (langs : list Lang) (W off : number) :
  length (compactProgressBar langs W off) = length langs.
Proof.
  revert off. induction langs as [|lang langs IH]; intros off;
    cbn [compactProgressBar length]; [reflexivity|].
  rewrite IH. reflexivity.
Qed.




End Compact_strip.



(** ** The options that are read and not used *)

Section Unused_options.
Context `{Runtime} `{Collaborators}.

(** C3.  Two runs of [renderTopLanguages] on the same languages and user
    name, with options that differ at most in [hide], [langs_count] and
    [layout], configure the same card (so the same height), build the same
    body and return the same markup. *)
Theorem selection_options_have_no_effect (topLangs : list (list Lang))
    (username : string) (o1 o2 : Options) :
  same_but_selection o1 o2 ->
  topLanguagesCard topLangs username o1 = topLanguagesCard topLangs username o2
  /\ Card.height (topLanguagesCard topLangs username o1).1
     = Card.height (topLanguagesCard topLangs username o2).1
  /\ renderTopLanguages topLangs username o1
     = renderTopLanguages topLangs username o2.
Proof.
  intros Hsame.
  assert (Hcard : topLanguagesCard topLangs username o1
                  = topLanguagesCard topLangs username o2).
  { destruct o1, o2. unfold same_but_selection in Hsame. cbn in Hsame.
    destruct Hsame as (-> & -> & -> & -> & -> & -> & -> & -> & -> & -> & ->).
    reflexivity. }
  split; [exact Hcard|]. unfold renderTopLanguages. rewrite Hcard.
  split; reflexivity.
Qed.

End Unused_options.

Lemma selection_options_have_no_effect_witness :
  let render :=
    @renderTopLanguages Samples.plain_runtime Samples.plain_collaborators in
  let card :=
    @topLanguagesCard Samples.plain_runtime Samples.plain_collaborators in
  let topLangs := [normalize Samples.alpha; normalize Samples.beta] in
  same_but_selection Samples.no_options Samples.selection_options
  /\ card topLangs "octocat" Samples.no_options
     = card topLangs "octocat" Samples.selection_options
  /\ Card.height (card topLangs "octocat" Samples.no_options).1
     = Card.height (card topLangs "octocat" Samples.selection_options).1
  /\ render topLangs "octocat" Samples.no_options
     = render topLangs "octocat" Samples.selection_options.
Proof.
  intros render card topLangs.
  assert (Hsame : same_but_selection Samples.no_options
                    Samples.selection_options).
  { repeat split. }
  split; [exact Hsame|].
  exact (@selection_options_have_no_effect Samples.plain_runtime
           Samples.plain_collaborators topLangs "octocat"
           Samples.no_options Samples.selection_options Hsame).
Defined.

(** ** More on the fetcher *)

Section Fetcher_outcomes.
Variables wrap wrap' : string -> number -> number -> list string.

Lemma fetch_cases (username : string) (exclude_repo : list string)
    (upstream : Result Response) :
  fetchTopLanguages wrap username exclude_repo upstream
  = if truthy (Some username) then
      match upstream with
      | inl e => inl e
      | inr res =>
          match errors res with
          | Some [] => inl TypeError
          | Some (e :: _) =>
              inl (Error (or_else (err_message e) "Could not fetch user"))
          | None => inr (map normalize (with_languages (nodes res)))
          end
      end
    else inl (MissingParamError ["username"%string]).
Proof.
  unfold fetchTopLanguages, graphql_errors, with_languages.
  destruct (truthy (Some username)); [|reflexivity].
  destruct upstream as [e|res]; [reflexivity|]. cbn [throw_if negb bind ret].
  destruct (errors res) as [[|e errs]|]; reflexivity.
Qed.


(** X2.  Neither the list of repositories to exclude nor the text wrapper
    has any effect on what [fetchTopLanguages] answers. *)
Theorem fetchTopLanguages_ignores_exclude_repo (username : string)
    (exclude_repo exclude_repo' : list string) (upstream : Result Response) :
  fetchTopLanguages wrap username exclude_repo upstream
  = fetchTopLanguages wrap' username exclude_repo' upstream.
Proof.
  unfold fetchTopLanguages, graphql_errors.
  destruct (truthy (Some username)); [|reflexivity].
  destruct upstream as [e|res]; [reflexivity|]. cbn [throw_if negb bind ret].
  destruct (errors res) as [[|e errs]|]; reflexivity.
Qed.

Lemma normalize_labels (repo : RepoNode) :
  map label (normalize repo) = map (edge_label repo) (edges repo).
Proof.
  unfold normalize. rewrite <- list_fmap_compose. reflexivity.
Qed.

Lemma with_languages_nonempty (repos : list RepoNode) :
  Forall (fun repo => edges repo <> []) (with_languages repos).
Proof.
  apply Forall_forall. intros repo Hin.
  apply list_elem_of_filter in Hin as [Hlen _].
  intros Hnil. apply Hlen. rewrite Hnil. reflexivity.
Qed.

(** X3.  When [fetchTopLanguages] returns, it returns one list for each
    repository with languages, in the order of the payload; no list is
    empty, and each holds the repository's languages in their order, with
    their names and colors and the repository's name. *)
Theorem fetchTopLanguages_shape (username : string)
    (exclude_repo : list string) (res : Response)
    (topLangs : list (list Lang)) :
  fetchTopLanguages wrap username exclude_repo (inr res) = inr topLangs ->
  Forall (fun l => l <> []) topLangs
  /\ Forall2 (fun repo l => map label l = map (edge_label repo) (edges repo))
       (with_languages (nodes res)) topLangs
  /\ (length topLangs <= length (nodes res))%nat.
Proof.
  rewrite fetch_cases. destruct (truthy (Some username)); [|discriminate].
  destruct (errors res) as [[|e errs]|]; try discriminate.
  intros Heq. injection Heq as <-.
  pose proof (with_languages_nonempty (nodes res)) as Hne.
  split; [|split].
  - apply Forall_fmap. eapply Forall_impl; [exact Hne|].
    intros repo Hrepo Hnil. apply Hrepo.
    unfold compose, normalize in Hnil. apply fmap_nil_inv in Hnil. exact Hnil.
  - apply Forall2_fmap_r, Forall_Forall2_diag, Forall_forall.
    intros repo _. apply normalize_labels.
  - rewrite length_fmap. apply length_filter.
Qed.

Lemma bytes_upper (es : list LanguageEdge) :
  Forall (fun e => 0 <= edge_size e) es ->
  Forall (fun e => edge_size e <= bytes es) es /\ 0 <= bytes es.
Proof.
  induction 1 as [|e es He _ [IH Hpos]]; [split; [constructor|reflexivity]|].
  change (bytes (e :: es)) with (edge_size e + bytes es). split; [|lia].
  constructor; [lia|]. eapply Forall_impl; [exact IH|].
  intros e' He'. cbn beta in He'. lia.
Qed.

Lemma share_of_bytes (repo : RepoNode) (e : LanguageEdge) :
  bytes (edges repo) <> 0 ->
  size (share repo e)
  = ofQ (inject_Z (edge_size e) / inject_Z (bytes (edges repo))).
Proof.
  intros HT. unfold share; cbn [size]. rewrite totalSize_bytes.
  unfold ofZ. apply ofQ_div. intros Hz. apply HT.
  unfold Qeq in Hz; simpl in Hz. lia.
Qed.

(** X4.  For a repository whose byte sizes are not negative and not all
    zero, every share the fetcher computes is the language's bytes over the
    repository's bytes, a rational between 0 and 1. *)
Theorem normalize_shares_in_unit_interval (repo : RepoNode) :
  Forall (fun e => 0 <= edge_size e) (edges repo) ->
  0 < bytes (edges repo) ->
  Forall2 (fun e lang =>
             size lang
             = ofQ (inject_Z (edge_size e) / inject_Z (bytes (edges repo)))
             /\ (0 <= inject_Z (edge_size e) / inject_Z (bytes (edges repo))
                 <= 1)%Q)
    (edges repo) (normalize repo).
Proof.
  intros Hpos HT. destruct (bytes_upper _ Hpos) as [Hup _].
  unfold normalize. apply Forall2_fmap_r, Forall_Forall2_diag.
  rewrite Forall_forall in Hpos, Hup. apply Forall_forall. intros e He.
  split; [apply share_of_bytes; lia|].
  specialize (Hpos e He). specialize (Hup e He). cbn beta in Hpos, Hup.
  assert (HTq : (0 < inject_Z (bytes (edges repo)))%Q).
  { change 0%Q with (inject_Z 0). rewrite <- Zlt_Qlt. exact HT. }
  split.
  - apply Qle_shift_div_l; [exact HTq|]. rewrite Qmult_0_l.
    change 0%Q with (inject_Z 0). rewrite <- Zle_Qle. exact Hpos.
  - apply Qle_shift_div_r; [exact HTq|]. rewrite Qmult_1_l.
    rewrite <- Zle_Qle. exact Hup.
Qed.

End Fetcher_outcomes.

(** ** More on the selection *)

Section Selection_more.

Lemma filter_result_unnamed (m : gmap string bool) (l : list Lang) :
  Exists (fun lang => name lang = None) l ->
  filter_result (not_hidden m) l = inl TypeError.
Proof.
  induction l as [|x l IH]; intros Hex; [inversion Hex|].
  cbn [filter_result]. unfold not_hidden at 1.
  destruct (name x) as [n|] eqn:Hn; [|reflexivity].
  cbn [bind ret]. rewrite IH; [reflexivity|].
  apply Exists_cons in Hex as [Hx|Hl]; [congruence|exact Hl].
Qed.

(** X5.  [useLanguages] returns a selection exactly when every language has
    a name; when one has none it throws a [TypeError], whatever the hide
    list and the count are. *)
Theorem useLanguages_outcome (topLangs : list (string * Lang))
    (hide : option (list string)) (langs_count : string) :
  (Forall (fun lang => is_Some (name lang)) (Object_values topLangs)
   /\ exists sel, useLanguages topLangs hide langs_count = inr sel)
  \/ (Exists (fun lang => name lang = None) (Object_values topLangs)
      /\ useLanguages topLangs hide langs_count = inl TypeError).
Proof.
  destruct (decide (Forall (fun lang => is_Some (name lang))
                      (Object_values topLangs))) as [Hall|Hex].
  - left. split; [exact Hall|]. unfold useLanguages.
    rewrite filter_result_named by (apply sorted_names, Hall).
    eexists. reflexivity.
  - right. apply not_Forall_Exists in Hex; try apply _.
    assert (Hex' : Exists (fun lang => name lang = None)
                     (Object_values topLangs)).
    { eapply Exists_impl; [exact Hex|]. intros lang Hn. unfold compose in Hn.
      destruct (name lang); [|reflexivity]. exfalso. apply Hn.
      eexists. reflexivity. }
    split; [exact Hex'|]. unfold useLanguages.
    rewrite filter_result_unnamed; [reflexivity|].
    rewrite Array_sort_perm. exact Hex'.
Qed.

Lemma StronglySorted_sublist {A : Type} (R : A -> A -> Prop) (l k : list A) :
  l `sublist_of` k -> StronglySorted R k -> StronglySorted R l.
Proof.
  induction 1 as [|x l k Hsub IH|x l k Hsub IH]; intros Hs.
  - constructor.
  - apply StronglySorted_inv in Hs as [Hk Hx]. constructor; [apply IH, Hk|].
    rewrite Forall_forall in Hx. apply Forall_forall. intros y Hy.
    apply Hx. eapply sublist_subseteq; [exact Hsub|exact Hy].
  - apply StronglySorted_inv in Hs as [Hk _]. apply IH, Hk.
Qed.

Lemma useLanguages_named (topLangs : list (string * Lang))
    (hide : option (list string)) (langs_count : string) :
  Forall (fun lang => is_Some (name lang)) (Object_values topLangs) ->
  useLanguages topLangs hide langs_count
  = inr (let kept :=
           Array_slice0
             (filter (fun lang => visible (langsToHide_of hide) lang = true)
                (Array_sort by_size_desc (Object_values topLangs)))
             (clampValue (parseInt langs_count) (ofZ 1) (ofZ 10)) in
         {| langs := kept;
            totalLanguageSize :=
              foldl (fun acc curr => add acc (size curr)) (ofZ 0) kept |}).
Proof.
  intros Hall. unfold useLanguages.
  rewrite filter_result_named by (apply sorted_names, Hall). reflexivity.
Qed.

Lemma useLanguages_inr (topLangs : list (string * Lang))
    (hide : option (list string)) (langs_count : string) (sel : Selection) :
  useLanguages topLangs hide langs_count = inr sel ->
  Forall (fun lang => is_Some (name lang)) (Object_values topLangs).
Proof.
  intros Hsel.
  destruct (decide (Forall (fun lang => is_Some (name lang))
                      (Object_values topLangs))) as [Hall|Hex];
    [exact Hall|].
  exfalso. apply not_Forall_Exists in Hex; try apply _.
  assert (Hex' : Exists (fun lang => name lang = None)
                   (Object_values topLangs)).
  { eapply Exists_impl; [exact Hex|]. intros lang Hn. unfold compose in Hn.
    destruct (name lang); [|reflexivity]. exfalso. apply Hn.
    eexists. reflexivity. }
  unfold useLanguages in Hsel. rewrite filter_result_unnamed in Hsel.
  - discriminate.
  - rewrite Array_sort_perm. exact Hex'.
Qed.

Lemma selection_sublist (topLangs : list (string * Lang))
    (hide : option (list string)) (langs_count : string) (sel : Selection) :
  useLanguages topLangs hide langs_count = inr sel ->
  langs sel `sublist_of` Array_sort by_size_desc (Object_values topLangs).
Proof.
  intros Hsel. pose proof (useLanguages_inr _ _ _ _ Hsel) as Hall.
  rewrite (useLanguages_named _ _ _ Hall) in Hsel. injection Hsel as <-.
  cbn [langs]. unfold Array_slice0.
  etrans; [apply sublist_take|apply sublist_filter].
Qed.

Lemma StronglySorted_lookup {A : Type} (R : A -> A -> Prop) (l : list A)
    (i j : nat) (a b : A) :
  StronglySorted R l -> (i < j)%nat -> l !! i = Some a -> l !! j = Some b ->
  R a b.
Proof.
  intros Hs. revert i j. induction Hs as [|x l Hs IH Hx]; intros i j Hij Ha Hb.
  - discriminate.
  - destruct j as [|j]; [lia|]. cbn in Hb. destruct i as [|i].
    + injection Ha as <-. rewrite Forall_forall in Hx. apply Hx.
      eapply list_elem_of_lookup_2, Hb.
    + cbn in Ha. apply (IH i j); [lia|assumption..].
Qed.

Lemma stays_not_lt (a b : Lang) :
  finite_size a -> finite_size b -> stays by_size_desc a b ->
  lt (size a) (size b) = false.
Proof.
  intros [qa Ha]%finite_size_inv [qb Hb]%finite_size_inv Hst.
  apply (stays_by_size a b qa qb Ha Hb) in Hst. rewrite Ha, Hb.
  unfold lt. apply bool_decide_eq_false. apply Qcle_not_lt. exact Hst.
Qed.

(** X6.  For languages of finite size, what [useLanguages] selects is taken
    from its input in order of size: the selection is a sublist of the
    sorted input, which is a rearrangement of the input, and no selected
    language is smaller than one selected after it. *)
Theorem useLanguages_selection_sorted (topLangs : list (string * Lang))
    (hide : option (list string)) (langs_count : string) (sel : Selection) :
  Forall finite_size (Object_values topLangs) ->
  useLanguages topLangs hide langs_count = inr sel ->
  langs sel `sublist_of` Array_sort by_size_desc (Object_values topLangs)
  /\ Array_sort by_size_desc (Object_values topLangs)
     ≡ₚ Object_values topLangs
  /\ (forall i j a b,
        (i < j)%nat -> langs sel !! i = Some a -> langs sel !! j = Some b ->
        lt (size a) (size b) = false).
Proof.
  intros Hfin Hsel. pose proof (selection_sublist _ _ _ _ Hsel) as Hsub.
  split; [exact Hsub|]. split; [apply Array_sort_perm|].
  assert (Hsorted : StronglySorted (stays by_size_desc) (langs sel)).
  { eapply StronglySorted_sublist; [exact Hsub|].
    apply (Array_sort_sorted by_size_desc finite_size);
      [apply by_size_trans|apply by_size_total|exact Hfin]. }
  assert (Hfin' : Forall finite_size (langs sel)).
  { apply Forall_forall. intros x Hx. rewrite Forall_forall in Hfin.
    apply Hfin. rewrite <- (Array_sort_perm by_size_desc).
    eapply sublist_subseteq; [exact Hsub|exact Hx]. }
  intros i j a b Hij Ha Hb. rewrite Forall_forall in Hfin'.
  apply stays_not_lt.
  - apply Hfin'. eapply list_elem_of_lookup_2, Ha.
  - apply Hfin'. eapply list_elem_of_lookup_2, Hb.
  - exact (StronglySorted_lookup _ _ i j a b Hsorted Hij Ha Hb).
Qed.

Lemma finite_sizes (l : list Lang) :
  Forall finite_size l -> exists qs : list Qc, map size l = map Fin qs.
Proof.
  induction 1 as [|x l [q Hq]%finite_size_inv _ [qs IH]].
  - exists []. reflexivity.
  - exists (q :: qs). cbn [map]. rewrite Hq, IH. reflexivity.
Qed.

Lemma total_cons (x : number) (l : list number) :
  total (x :: l) = add x (total l).
Proof.
  unfold total at 1. cbn [foldl]. rewrite add_0_l. apply foldl_add_from.
Qed.

Lemma total_Fin (qs : list Qc) : total (map Fin qs) = Fin (Qcsum qs).
Proof.
  induction qs as [|q qs IH]; [reflexivity|].
  cbn [map]. rewrite total_cons, IH. reflexivity.
Qed.

Lemma percent_total (qs : list Qc) (T : Qc) :
  T <> 0%Qc ->
  total (map (fun x => mul (div x (Fin T)) (ofZ 100)) (map Fin qs))
  = Fin (Qcsum qs / T * Q2Qc (inject_Z 100))%Qc.
Proof.
  intros HT. induction qs as [|q qs IH].
  - cbn [map]. change (total []) with (ofZ 0). unfold ofZ, ofQ.
    apply (f_equal Fin). unfold Qcsum; cbn [foldr]. unfold Qcdiv.
    change (Q2Qc (inject_Z 0)) with 0%Qc. ring.
  - cbn [map]. rewrite total_cons, IH. unfold div.
    rewrite decide_False by exact HT. unfold ofZ, ofQ. cbn [mul add].
    apply (f_equal Fin). unfold Qcsum; cbn [foldr]. unfold Qcdiv.
    change (Q2Qc (inject_Z 0)) with 0%Qc. ring.
Qed.

(** X7.  The total [useLanguages] returns is the sum of the selected sizes;
    and when the sizes are finite and that total is not zero, the
    percentages the normal layout computes from it,
    [(lang.size / totalLanguageSize) * 100], add up to exactly 100. *)
Theorem useLanguages_total (topLangs : list (string * Lang))
    (hide : option (list string)) (langs_count : string) (sel : Selection) :
  useLanguages topLangs hide langs_count = inr sel ->
  totalLanguageSize sel = total (map size (langs sel))
  /\ (Forall finite_size (Object_values topLangs) ->
      totalLanguageSize sel <> ofZ 0 ->
      total (map (fun lang =>
                    mul (div (size lang) (totalLanguageSize sel)) (ofZ 100))
               (langs sel))
      = ofZ 100).
Proof.
  intros Hsel. pose proof (selection_sublist _ _ _ _ Hsel) as Hsub.
  pose proof (useLanguages_inr _ _ _ _ Hsel) as Hall.
  assert (Htot : totalLanguageSize sel = total (map size (langs sel))).
  { rewrite (useLanguages_named _ _ _ Hall) in Hsel. injection Hsel as <-.
    cbn [langs totalLanguageSize]. unfold total. rewrite foldl_fmap.
    reflexivity. }
  split; [exact Htot|]. intros Hfin Hnz.
  assert (Hfin' : Forall finite_size (langs sel)).
  { apply Forall_forall. intros x Hx. rewrite Forall_forall in Hfin.
    apply Hfin. rewrite <- (Array_sort_perm by_size_desc).
    eapply sublist_subseteq; [exact Hsub|exact Hx]. }
  destruct (finite_sizes _ Hfin') as [qs Hqs].
  rewrite Htot in Hnz |- *. rewrite Hqs, total_Fin in Hnz |- *.
  assert (HT : Qcsum qs <> 0%Qc).
  { intros Hz. apply Hnz. rewrite Hz. reflexivity. }
  replace (map (fun lang => mul (div (size lang) (Fin (Qcsum qs))) (ofZ 100))
             (langs sel))
    with (map (fun x => mul (div x (Fin (Qcsum qs))) (ofZ 100))
            (map size (langs sel)))
    by (rewrite <- list_fmap_compose; reflexivity).
  rewrite Hqs, percent_total by exact HT. unfold ofZ, ofQ.
  apply (f_equal Fin). field. exact HT.
Qed.

(** X8.  What the filter of [useLanguages] lets through: a selected language
    is an input language whose name, lower-cased and trimmed, equals no
    hide-list entry treated the same way and is not a property every object
    inherits (such as [constructor]); and when the count covers the whole
    input, every such input language is selected. *)
Theorem useLanguages_membership (topLangs : list (string * Lang))
    (hide : option (list string)) (langs_count : string) (sel : Selection) :
  useLanguages topLangs hide langs_count = inr sel ->
  (forall lang, lang ∈ langs sel ->
     lang ∈ Object_values topLangs
     /\ exists n, name lang = Some n /\ kept_name hide n)
  /\ (forall k lang n,
        clampValue (parseInt langs_count) (ofZ 1) (ofZ 10) = ofZ k ->
        Z.of_nat (length (Object_values topLangs)) <= k ->
        lang ∈ Object_values topLangs -> name lang = Some n ->
        kept_name hide n -> lang ∈ langs sel).
Proof.
  intros Hsel. pose proof (useLanguages_inr _ _ _ _ Hsel) as Hall.
  rewrite (useLanguages_named _ _ _ Hall) in Hsel. injection Hsel as <-.
  cbn [langs]. split.
  - intros lang Hin. unfold Array_slice0 in Hin.
    apply subseteq_take in Hin. apply list_elem_of_filter in Hin as [Hvis Hin].
    rewrite Array_sort_perm in Hin. split; [exact Hin|].
    apply visible_iff in Hvis as (n & Hn & Hh & Hp). exists n.
    split; [exact Hn|]. split; assumption.
  - intros k lang n Hk Hlen Hin Hn [Hh Hp]. rewrite Hk.
    assert (0 <= k) by lia. rewrite Array_slice0_ofZ by assumption.
    rewrite take_ge.
    + apply list_elem_of_filter. split.
      * apply visible_iff. exists n. auto.
      * rewrite Array_sort_perm. exact Hin.
    + etrans; [apply length_filter|].
      rewrite (Permutation_length (Array_sort_perm by_size_desc _)). lia.
Qed.

End Selection_more.

(** ** Hiding comes before truncating *)

Section Hide_then_truncate.





End Hide_then_truncate.


(** ** More on the merge pass *)

Section Merge_more.

Lemma same_lang_key (lang x : Lang) :
  same_lang lang x = true <-> lang_key x = lang_key lang.
Proof.
  rewrite same_lang_iff. unfold lang_key. split.
  - intros [-> ->]. reflexivity.
  - intros Heq. injection Heq as -> ->. split; reflexivity.
Qed.

Lemma merge_into_keys (lang : Lang) (all : list Lang) :
  map lang_key (merge_into lang all)
  = if decide (lang_key lang ∈ map lang_key all) then map lang_key all
    else (map lang_key all ++ [lang_key lang])%list.
Proof.
  induction all as [|x r IH]; cbn [merge_into map].
  - rewrite decide_False by apply not_elem_of_nil. reflexivity.
  - destruct (same_lang lang x) eqn:Hx.
    + apply same_lang_key in Hx. rewrite decide_True by (rewrite Hx; left).
      reflexivity.
    + cbn [map]. rewrite IH.
      assert (Hne : lang_key lang <> lang_key x).
      { intros Heq. symmetry in Heq. apply same_lang_key in Heq.
        congruence. }
      destruct (decide (lang_key lang ∈ map lang_key r)) as [Hin|Hnin].
      * rewrite decide_True by (right; exact Hin). reflexivity.
      * rewrite decide_False; [reflexivity|].
        intros Hin. apply elem_of_cons in Hin as [?|?]; contradiction.
Qed.

Lemma merge_into_counted (lang : Lang) (all : list Lang) :
  skipped lang = false -> Forall (fun x => skipped x = false) all ->
  Forall (fun x => skipped x = false) (merge_into lang all).
Proof.
  intros Hs. induction 1 as [|x r Hx Hr IH]; cbn [merge_into].
  - repeat constructor. exact Hs.
  - destruct (same_lang lang x); constructor;
      [exact Hx|exact Hr|exact Hx|exact IH].
Qed.

Lemma merge_step_keys_inv (all : list Lang) (lang : Lang) :
  NoDup (map lang_key all) /\ Forall (fun x => skipped x = false) all ->
  NoDup (map lang_key (merge_step all lang))
  /\ Forall (fun x => skipped x = false) (merge_step all lang).
Proof.
  intros [Hnd Hall]. destruct (skipped lang) eqn:Hs.
  - unfold merge_step. rewrite Hs. split; assumption.
  - rewrite merge_step_into by exact Hs. split.
    + rewrite merge_into_keys. destruct (decide _) as [Hin|Hnin]; [exact Hnd|].
      apply NoDup_app. split; [exact Hnd|]. split; [|apply NoDup_singleton].
      intros k Hk Hk'. apply list_elem_of_singleton in Hk' as ->. contradiction.
    + apply merge_into_counted; assumption.
Qed.

Lemma merge_keys_inv (langs : list (list Lang)) :
  NoDup (map lang_key (merge langs))
  /\ Forall (fun x => skipped x = false) (merge langs).
Proof.
  unfold merge. rewrite merge_from_concat.
  assert (Hgen : forall l acc,
    NoDup (map lang_key acc) /\ Forall (fun x => skipped x = false) acc ->
    NoDup (map lang_key (foldl merge_step acc l))
    /\ Forall (fun x => skipped x = false) (foldl merge_step acc l)).
  { induction l as [|lang l IH]; intros acc Hacc; [exact Hacc|].
    cbn [foldl]. apply IH, merge_step_keys_inv, Hacc. }
  apply Hgen. split; constructor.
Qed.

Lemma accumulated_None (l : list number) :
  is_Some (accumulated None l) <-> l <> [].
Proof.
  destruct l as [|x l]; cbn [accumulated]; split.
  - intros [y Hy]. discriminate.
  - congruence.
  - discriminate.
  - intros _. eexists. reflexivity.
Qed.

(** X9.  After the merge pass no two entries have the same name and color,
    no entry lacks a name or a color, and a (name, color) pair has an entry
    exactly when some record of the input that is not skipped carries it. *)
Theorem merge_entries_distinct (langs : list (list Lang)) :
  NoDup (map lang_key (merge langs))
  /\ Forall (fun x => truthy (name x) = true /\ truthy (color x) = true)
       (merge langs)
  /\ (forall n c,
        is_Some (merged_size n c (merge langs))
        <-> exists lang, lang ∈ concat langs /\ skipped lang = false
                         /\ lang_key lang = (n, c)).
Proof.
  destruct (merge_keys_inv langs) as [Hnd Hall]. split; [exact Hnd|].
  split.
  - eapply Forall_impl; [exact Hall|]. intros x Hx. cbn beta in Hx.
    unfold skipped in Hx. apply orb_false_elim in Hx as [Hc Hn].
    apply negb_false_iff in Hc, Hn. split; assumption.
  - intros n c. rewrite merged_size_merge, accumulated_None.
    unfold contributions. split.
    + intros Hne.
      destruct (filter _ (concat langs)) as [|lang r] eqn:Hf;
        [contradiction|].
      assert (Hin : lang ∈ filter (fun lang => skipped lang = false
                                   /\ color lang = c /\ name lang = n)
                              (concat langs)) by (rewrite Hf; left).
      apply list_elem_of_filter in Hin as [(Hs & Hc & Hn) Hin].
      exists lang. split; [exact Hin|]. split; [exact Hs|].
      unfold lang_key. congruence.
    + intros (lang & Hin & Hs & Hk) Hnil. apply fmap_nil_inv in Hnil.
      assert (Hin' : lang ∈ filter (fun lang => skipped lang = false
                                    /\ color lang = c /\ name lang = n)
                               (concat langs)).
      { apply list_elem_of_filter. split; [|exact Hin].
        unfold lang_key in Hk. injection Hk as Hn Hc. auto. }
      rewrite Hnil in Hin'. apply elem_of_nil in Hin'. exact Hin'.
Qed.

Lemma total_sizes_into (lang : Lang) (all : list Lang) :
  total (map size (merge_into lang all))
  = add (total (map size all)) (size lang).
Proof.
  induction all as [|x r IH]; cbn [merge_into map].
  - rewrite total_cons. change (total []) with (ofZ 0).
    rewrite add_0_l, add_0_r. reflexivity.
  - destruct (same_lang lang x); cbn [map size set_size].
    + rewrite !total_cons.
      rewrite <- !add_assoc. f_equal. apply add_comm.
    + rewrite !total_cons, IH. apply add_assoc.
Qed.

Lemma total_sizes_fold (l acc : list Lang) :
  total (map size (foldl merge_step acc l))
  = add (total (map size acc)) (total (map size (counted l))).
Proof.
  revert acc. induction l as [|lang l IH]; intros acc; cbn [foldl].
  - change (total (map size (counted []))) with (ofZ 0).
    rewrite add_0_r. reflexivity.
  - rewrite IH. unfold counted. rewrite filter_cons.
    destruct (skipped lang) eqn:Hs.
    + rewrite decide_False by discriminate.
      unfold merge_step. rewrite Hs. reflexivity.
    + rewrite decide_True by reflexivity.
      rewrite merge_step_into, total_sizes_into by exact Hs.
      cbn [map]. rewrite total_cons, add_assoc. reflexivity.
Qed.

Lemma merge_total (langs : list (list Lang)) :
  total (map size (merge langs))
  = total (map size (counted (concat langs))).
Proof.
  unfold merge. rewrite merge_from_concat, total_sizes_fold.
  change (total (map size [])) with (ofZ 0). apply add_0_l.
Qed.

(** X10.  The merge pass loses no weight of the records it counts: the
    sizes of its entries add up to the sum of the shares of all records
    that have a name and a color. *)
Theorem merge_conserves_weight (langs : list (list Lang)) :
  total (map size (merge langs))
  = total (map size (counted (concat langs))).
Proof. apply merge_total. Qed.

Lemma total_perm (l k : list number) : l ≡ₚ k -> total l = total k.
Proof.
  induction 1 as [|x l k _ IH|x y l|l k m _ IH1 _ IH2].
  - reflexivity.
  - rewrite !total_cons, IH. reflexivity.
  - rewrite !total_cons, !add_assoc, (add_comm y x). reflexivity.
  - congruence.
Qed.

(** X11.  The sizes the merge pass accumulates depend on the records only,
    not on their order or on how they are spread over repositories: two
    inputs holding the same records give the same size for every pair. *)
Theorem merge_order_irrelevant (langs langs' : list (list Lang))
    (n c : option string) :
  concat langs ≡ₚ concat langs' ->
  merged_size n c (merge langs) = merged_size n c (merge langs').
Proof.
  intros Hperm. rewrite !merged_size_merge.
  assert (Hc : contributions n c (concat langs)
               ≡ₚ contributions n c (concat langs')).
  { unfold contributions. rewrite Hperm. reflexivity. }
  destruct (contributions n c (concat langs)) as [|a la] eqn:Ha.
  - apply Permutation_nil_l in Hc. rewrite Hc. reflexivity.
  - destruct (contributions n c (concat langs')) as [|b lb] eqn:Hb.
    + apply Permutation_nil_r in Hc. discriminate.
    + cbn [accumulated]. f_equal. apply total_perm, Hc.
Qed.

End Merge_more.


(** ** From the fetcher to the merge pass *)

Section Fetch_then_merge.
Variable wrap : string -> number -> number -> list string.

Lemma normalize_total (repo : RepoNode) :
  0 < bytes (edges repo) -> total (map size (normalize repo)) = ofZ 1.
Proof.
  intros HT. unfold normalize, total. rewrite <- list_fmap_compose.
  rewrite (list_fmap_ext _ (fun e => div (ofZ (edge_size e))
                                      (ofZ (bytes (edges repo)))) (edges repo)).
  2:{ intros i e _. unfold compose, share; cbn [size].
      rewrite totalSize_bytes. reflexivity. }
  unfold ofZ at 1. rewrite foldl_add_shares by lia.
  apply ofQ_eq. field. intros Hz. unfold Qeq in Hz; simpl in Hz. lia.
Qed.

Lemma normalize_counted (repo : RepoNode) :
  Forall (fun e => truthy (node_name (node e)) = true
                   /\ truthy (node_color (node e)) = true) (edges repo) ->
  counted (normalize repo) = normalize repo.
Proof.
  intros Hall. unfold counted, normalize.
  induction Hall as [|e es [Hn Hc] _ IH]; [reflexivity|].
  cbn [map]. rewrite filter_cons_True.
  - f_equal. exact IH.
  - unfold skipped, share; cbn [name color]. rewrite Hn, Hc. reflexivity.
Qed.

Lemma counted_app (l k : list Lang) :
  counted (l ++ k) = (counted l ++ counted k)%list.
Proof. apply filter_app. Qed.

(** X12.  When every repository the fetcher returns has a positive number
    of bytes and languages that all have a name and a color, the sizes of
    the merged entries add up to the number of those repositories: each
    repository weighs one. *)
Theorem merged_sizes_count_repositories (username : string)
    (exclude_repo : list string) (res : Response)
    (topLangs : list (list Lang)) :
  fetchTopLanguages wrap username exclude_repo (inr res) = inr topLangs ->
  Forall (fun repo =>
            0 < bytes (edges repo)
            /\ Forall (fun e => truthy (node_name (node e)) = true
                               /\ truthy (node_color (node e)) = true)
                 (edges repo))
    (with_languages (nodes res)) ->
  total (map size (merge topLangs)) = ofNat (length topLangs).
Proof.
  rewrite fetch_cases. destruct (truthy (Some username)); [|discriminate].
  destruct (errors res) as [[|e errs]|]; try discriminate.
  intros Heq. injection Heq as <-. intros Hrepos.
  rewrite merge_total, length_fmap.
  induction Hrepos as [|repo repos [HT Hnamed] _ IH]; [reflexivity|].
  cbn [map concat length].
  rewrite counted_app, map_app, total_app, IH.
  rewrite (normalize_counted repo Hnamed), (normalize_total repo HT).
  unfold ofNat. rewrite ofZ_add. f_equal. lia.
Qed.

End Fetch_then_merge.

(** ** More on the compact strip *)

Section Strip_more.
Context `{Runtime}.

Lemma progress_at_least_ten (p : Q) :
  (0 <= p)%Q ->
  exists p' : Q, progress (ofQ p) = ofQ p' /\ (inject_Z 10 <= p')%Q.
Proof.
  intros Hp. unfold progress. change (ofZ 10) with (ofQ (inject_Z 10)).
  destruct (lt (ofQ p) (ofQ (inject_Z 10))) eqn:Hlt.
  - exists (p + inject_Z 10)%Q. split; [apply ofQ_add|].
    change (inject_Z 10) with (10 # 1). lra.
  - exists p. split; [reflexivity|]. apply lt_ofQ_false in Hlt. exact Hlt.
Qed.

Lemma percentages_rational (langs : list Lang) (w : Q) :
  Forall (fun l => exists s : Q, size l = ofQ s /\ (0 <= s <= 1)%Q) langs ->
  (0 <= w < inject_Z (10 ^ 21))%Q ->
  exists ps : list Q,
    map (fun l => percentage l (ofQ w)) langs = map ofQ ps
    /\ Forall (fun p => (0 <= p)%Q) ps.
Proof.
  intros Hall Hw. induction Hall as [|l langs (s & Hs & Hs01) _ (ps & IH & Hps)].
  - exists []. split; [reflexivity|constructor].
  - destruct (percentage_rounds l s w Hs Hs01 Hw) as (p & Hp & _ & Hpos).
    exists (p :: ps). cbn [map]. rewrite Hp, IH.
    split; [reflexivity|]. constructor; assumption.
Qed.

Lemma Qsum_take_nonneg (ps : list Q) (i : nat) :
  Forall (fun p => (0 <= p)%Q) ps -> (0 <= Qsum (take i ps))%Q.
Proof.
  intros Hps. revert i. induction Hps as [|p ps Hp _ IH]; intros [|i];
    unfold Qsum in *; cbn [take foldr]; try lra.
  specialize (IH i). lra.
Qed.

(** X13.  For a repository whose shares lie between 0 and 1 and a width
    below [10^21], every rectangle of the strip is drawn at least [10]
    wide, and the rectangles are placed from left to right: none starts
    before the one that precedes it. *)
Theorem compact_strip_visible (langs : list Lang) (w : Q) :
  Forall (fun l => exists s : Q, size l = ofQ s /\ (0 <= s <= 1)%Q) langs ->
  (0 <= w < inject_Z (10 ^ 21))%Q ->
  let segs := compactProgressBar langs (ofQ w) (ofZ 0) in
  length segs = length langs
  /\ Forall (fun seg => lt (seg_width seg) (ofZ 10) = false) segs
  /\ (forall i seg next,
        segs !! i = Some seg -> segs !! S i = Some next ->
        lt (seg_x next) (seg_x seg) = false).
Proof.
  intros Hall Hw segs.
  destruct (percentages_rational langs w Hall Hw) as (ps & Hps & Hpos).
  split; [apply compactProgressBar_length|]. split.
  - apply Forall_forall. intros seg Hin.
    apply list_elem_of_lookup_1 in Hin as [i Hi].
    apply compactProgressBar_lookup in Hi as (l & Hl & _ & Hwd).
    rewrite Forall_forall in Hall.
    destruct (Hall l (list_elem_of_lookup_2 _ _ _ Hl)) as (s & Hs & Hs01).
    destruct (percentage_rounds l s w Hs Hs01 Hw) as (p & Hp & _ & Hp0).
    rewrite Hwd, Hp. destruct (progress_at_least_ten p Hp0) as (p' & -> & Hp').
    change (ofZ 10) with (ofQ (inject_Z 10)). apply lt_ofQ_false.
    exact Hp'.
  - intros i seg next Hseg Hnext.
    apply compactProgressBar_lookup in Hseg as (l & Hl & Hx & _).
    apply compactProgressBar_lookup in Hnext as (l' & _ & Hx' & _).
    rewrite Hps in Hx, Hx'. fold (total (take i (map ofQ ps))) in Hx.
    fold (total (take (S i) (map ofQ ps))) in Hx'.
    rewrite <- fmap_take, total_ofQ in Hx, Hx'. rewrite Hx, Hx'.
    apply lt_ofQ_false.
    assert (Hi : (i < length ps)%nat).
    { pose proof (f_equal length Hps) as Hlen.
      rewrite !length_map in Hlen. rewrite <- Hlen.
      eapply lookup_lt_Some, Hl. }
    destruct (lookup_lt_is_Some_2 ps i Hi) as [p Hp].
    rewrite (take_S_r _ _ _ Hp).
    assert (Hp0 : (0 <= p)%Q).
    { rewrite Forall_forall in Hpos. apply Hpos.
      eapply list_elem_of_lookup_2, Hp. }
    assert (Hsum : Qsum (take i ps ++ [p]) == Qsum (take i ps) + p).
    { clear. induction (take i ps) as [|q qs IH]; unfold Qsum in *;
        cbn [app foldr]; [lra|]. rewrite IH. lra. }
    rewrite Hsum. lra.
Qed.

Lemma percentage_NaN (lang : Lang) (W : number) :
  size lang = NaN -> percentage lang W = NaN.
Proof. intros Hs. unfold percentage. rewrite Hs. reflexivity. Qed.

Lemma foldl_add_NaN (l : list number) : foldl add NaN l = NaN.
Proof. induction l as [|x l IH]; [reflexivity|]. exact IH. Qed.

Lemma foldl_add_poisoned (a : number) (l : list number) :
  NaN ∈ l -> foldl add a l = NaN.
Proof.
  intros Hin. revert a. induction l as [|x l IH]; intros a.
  - apply elem_of_nil in Hin. destruct Hin.
  - cbn [foldl]. apply elem_of_cons in Hin as [<-|Hin].
    + replace (add a NaN) with NaN by (destruct a; reflexivity).
      apply foldl_add_NaN.
    + apply IH, Hin.
Qed.

(** X14.  A language whose share is NaN, as in a repository without bytes,
    gets a rectangle whose width is NaN, and every rectangle after it in
    the strip starts at NaN, whatever the width of the card. *)
Theorem compact_strip_NaN_spreads (langs : list Lang) (W : number)
    (i : nat) (lang : Lang) :
  langs !! i = Some lang -> size lang = NaN ->
  let segs := compactProgressBar langs W (ofZ 0) in
  (exists seg, segs !! i = Some seg /\ seg_width seg = NaN)
  /\ (forall j seg, (i < j)%nat -> segs !! j = Some seg -> seg_x seg = NaN).
Proof.
  intros Hl Hs segs. split.
  - assert (Hi : (i < length segs)%nat).
    { unfold segs. rewrite compactProgressBar_length.
      eapply lookup_lt_Some, Hl. }
    destruct (lookup_lt_is_Some_2 segs i Hi) as [seg Hseg].
    exists seg. split; [exact Hseg|].
    apply compactProgressBar_lookup in Hseg as (l & Hl' & _ & Hw).
    rewrite Hl in Hl'. injection Hl' as <-.
    rewrite Hw, (percentage_NaN lang W Hs). reflexivity.
  - intros j seg Hij Hseg.
    apply compactProgressBar_lookup in Hseg as (l & _ & Hx & _).
    rewrite Hx. apply foldl_add_poisoned.
    apply elem_of_take. exists i. split; [|exact Hij].
    rewrite list_lookup_fmap, Hl. cbn. f_equal. apply percentage_NaN, Hs.
Qed.

End Strip_more.

(** ** The width of the strips and the longest name *)

Section Width_and_legend.

(** X15.  The width [renderTopLanguages] gives the strips is never NaN
    and never below the minimum of 230: it is 300 when the option is
    missing or NaN, 230 when the option is smaller, and the option itself
    otherwise. *)
Theorem resolve_bar_width_bounds (card_width : option number) :
  isNaN (resolve_bar_width card_width) = false
  /\ lt (resolve_bar_width card_width) MIN_CARD_WIDTH = false
  /\ (card_width = None \/ card_width = Some NaN ->
      resolve_bar_width card_width = DEFAULT_CARD_WIDTH)
  /\ (forall w, card_width = Some w -> lt w MIN_CARD_WIDTH = true ->
      resolve_bar_width card_width = MIN_CARD_WIDTH)
  /\ (forall w, card_width = Some w -> isNaN w = false ->
      lt w MIN_CARD_WIDTH = false -> resolve_bar_width card_width = w).
Proof.
  assert (H300 : lt DEFAULT_CARD_WIDTH MIN_CARD_WIDTH = false).
  { unfold DEFAULT_CARD_WIDTH, MIN_CARD_WIDTH. rewrite lt_ofZ. reflexivity. }
  assert (H230 : lt MIN_CARD_WIDTH MIN_CARD_WIDTH = false).
  { unfold MIN_CARD_WIDTH. rewrite lt_ofZ. reflexivity. }
  unfold resolve_bar_width. destruct card_width as [w|];
    [destruct (isNaN w) eqn:Hnan; [|destruct (lt w MIN_CARD_WIDTH) eqn:Hlt]|];
    (split; [first [reflexivity|assumption]|]);
    (split; [first [assumption|exact H300|exact H230]|]);
    (split; [intros [Hc|Hc]; simplify_eq; first [reflexivity|discriminate]|]);
    split; intros w' Hw' **; simplify_eq; try reflexivity; try congruence.
  destruct w'; discriminate.
Qed.

Lemma longest_fold (arr : list Lang) (seed : Lang) :
  let f := fun savedLang lang =>
    if (String.length (default EmptyString (name savedLang))
        <? String.length (default EmptyString (name lang)))%nat
    then lang else savedLang in
  let r := foldl f seed arr in
  (name_length seed <= name_length r)%nat
  /\ Forall (fun lang => (name_length lang <= name_length r)%nat) arr
  /\ (r = seed \/ r ∈ arr).
Proof.
  intros f. revert seed. induction arr as [|x arr IH]; intros seed; cbn zeta.
  - cbn [foldl]. split; [lia|]. split; [constructor|left; reflexivity].
  - cbn [foldl]. specialize (IH (f seed x)). cbn zeta in IH.
    destruct IH as (Hseed & Hall & Hmem).
    assert (Hf : (name_length seed <= name_length (f seed x)
                  /\ name_length x <= name_length (f seed x))%nat
                 /\ (f seed x = seed \/ f seed x = x)).
    { unfold f, name_length.
      destruct (Nat.ltb_spec (String.length (default EmptyString (name seed)))
                  (String.length (default EmptyString (name x))));
        (split; [lia|auto]). }
    destruct Hf as [[Hs Hx] Hor].
    split; [lia|]. split; [constructor; [lia|exact Hall]|].
    destruct Hmem as [Hr|Hr].
    + rewrite Hr. destruct Hor as [->| ->]; [left; reflexivity|right; left].
    + right. right. exact Hr.
Qed.

(** X16.  [getLongestLang] returns a language of the array whose name is at
    least as long as every other name; for an empty array, or when every
    name is empty, it returns the record it starts from, whose name is
    empty and whose size counts as zero. *)
Theorem getLongestLang_longest (arr : list Lang) :
  Forall (fun lang => is_Some (name lang)) arr ->
  Forall (fun lang => (name_length lang <= name_length (getLongestLang arr))%nat)
    arr
  /\ (getLongestLang arr ∈ arr
      \/ (getLongestLang arr = longest_seed
          /\ Forall (fun lang => name lang = Some EmptyString) arr)).
Proof.
  intros Hnamed. destruct (longest_fold arr longest_seed) as (_ & Hall & Hmem).
  fold (getLongestLang arr) in Hall, Hmem. split; [exact Hall|].
  destruct Hmem as [Hr|Hr]; [right|left; exact Hr].
  split; [exact Hr|]. rewrite Hr in Hall.
  rewrite Forall_forall in Hall, Hnamed. apply Forall_forall. intros x Hx.
  specialize (Hall x Hx). destruct (Hnamed x Hx) as [n Hn].
  unfold name_length in Hall. rewrite Hn in Hall |- *. cbn in Hall.
  destruct n; [reflexivity|cbn in Hall; lia].
Qed.

End Width_and_legend.

(** ** The store after the merge pass *)

Section Store_footprint.

Lemma merge_step_ref_dom (h0 : gmap loc Lang) (st : store) (l : loc) :
  dom (heap st) = dom h0 ∪ list_to_set (allUniqueLangs st) ->
  dom (heap (merge_step_ref st l))
  = dom h0 ∪ list_to_set (allUniqueLangs (merge_step_ref st l)).
Proof.
  intros Hdom. unfold merge_step_ref.
  destruct (heap st !! l) as [lang|]; [|exact Hdom].
  destruct (skipped lang); [exact Hdom|].
  destruct (list_find _ (allUniqueLangs st)) as [[i f]|];
    cbn [heap allUniqueLangs].
  - rewrite dom_alter_L. exact Hdom.
  - rewrite dom_insert_L, list_to_set_app_L, Hdom. cbn [list_to_set].
    rewrite (right_id_L ∅ (∪)), (comm_L (∪) {[fresh _]}), (assoc_L (∪)).
    reflexivity.
Qed.

Lemma merge_refs_dom (h0 : gmap loc Lang) (langs : list (list loc))
    (st : store) :
  dom (heap st) = dom h0 ∪ list_to_set (allUniqueLangs st) ->
  dom (heap (merge_refs_from st langs))
  = dom h0 ∪ list_to_set (allUniqueLangs (merge_refs_from st langs)).
Proof.
  unfold merge_refs_from. revert st.
  induction langs as [|repo langs IH]; intros st Hdom; [exact Hdom|].
  cbn [foldl]. apply IH. clear IH. revert st Hdom.
  induction repo as [|l repo IH]; intros st Hdom; [exact Hdom|].
  cbn [foldl]. apply IH, merge_step_ref_dom, Hdom.
Qed.

(** X17.  On live references, the merge pass leaves in the store the
    objects that were there and the entries it allocated, nothing else, and
    it allocates exactly one object for each entry of the merged list. *)
Theorem merge_pass_footprint (h : gmap loc Lang) (langs : list (list loc)) :
  Forall (Forall (fun l => is_Some (h !! l))) langs ->
  let st := merge_refs h langs in
  dom (heap st) = dom h ∪ list_to_set (allUniqueLangs st)
  /\ length (allUniqueLangs st) = length (merge (map (deref h) langs))
  /\ base.size (dom (heap st))
     = (base.size (dom h) + length (merge (map (deref h) langs)))%nat.
Proof.
  intros Hlive st.
  assert (Hdom : dom (heap st) = dom h ∪ list_to_set (allUniqueLangs st)).
  { apply merge_refs_dom. cbn [heap allUniqueLangs list_to_set].
    rewrite (right_id_L ∅ (∪)). reflexivity. }
  split; [exact Hdom|].
  assert (Hinv : merge_inv h st (merge (map (deref h) langs))).
  { apply merge_refs_inv; [exact Hlive|].
    split; cbn [heap allUniqueLangs]; [reflexivity|constructor..]. }
  destruct Hinv as [_ Hfresh Hnd Hval].
  assert (Hlen : length (allUniqueLangs st)
                 = length (merge (map (deref h) langs))).
  { eapply Forall2_length, Hval. }
  split; [exact Hlen|].
  rewrite Hdom, size_union.
  - rewrite size_list_to_set by exact Hnd. rewrite Hlen. reflexivity.
  - intros r Hr Hr'. apply elem_of_list_to_set in Hr'.
    rewrite Forall_forall in Hfresh. exact (Hfresh r Hr' Hr).
Qed.

End Store_footprint.

(** ** What the merge pass leaves in an entry *)

Section Merge_pass_on_store.

Lemma truthy_not_skipped (lang : Lang) :
  skipped lang = false
  <-> truthy (name lang) = true /\ truthy (color lang) = true.
Proof.
  unfold skipped. rewrite orb_false_iff, !negb_false_iff. tauto.
Qed.

Lemma merged_size_elem (all : list Lang) (x : Lang) :
  NoDup (map lang_key all) -> x ∈ all ->
  merged_size (name x) (color x) all = Some (size x).
Proof.
  induction all as [|y all IH]; intros Hnd Hx; [inversion Hx|].
  cbn [map] in Hnd. apply NoDup_cons in Hnd as [Hy Hnd].
  rewrite merged_size_cons. apply elem_of_cons in Hx as [->|Hx].
  - rewrite decide_True by (split; reflexivity). reflexivity.
  - destruct (decide (color y = color x /\ name y = name x)) as [[Hc Hn]|_];
      [|apply IH; assumption].
    exfalso. apply Hy. apply list_elem_of_fmap. exists x.
    split; [|exact Hx]. unfold lang_key. congruence.
Qed.

Lemma merge_step_found (all : list Lang) (lang : Lang) (i : nat) (x : Lang) :
  skipped lang = false ->
  all !! i = Some x -> name x = name lang -> color x = color lang ->
  (forall j y, (j < i)%nat -> all !! j = Some y ->
               ~ (name y = name lang /\ color y = color lang)) ->
  merge_step all lang
  = <[i := {| name := name x; size := add (size x) (size lang);
              color := color x; repo_name := repo_name x |}]> all.
Proof.
  intros Hs Hi Hn Hc Hfirst. unfold merge_step. rewrite Hs.
  assert (Hfind : list_find (fun y => same_lang lang y = true) all
                  = Some (i, x)).
  { apply list_find_Some. split; [exact Hi|]. split.
    - apply same_lang_iff. split; assumption.
    - intros j y Hj Hlt Hy. apply same_lang_iff in Hy as [Hyc Hyn].
      apply (Hfirst j y Hlt Hj). split; assumption. }
  rewrite Hfind. reflexivity.
Qed.

Lemma merge_step_new (all : list Lang) (lang : Lang) :
  skipped lang = false ->
  (forall y, y ∈ all -> ~ (name y = name lang /\ color y = color lang)) ->
  merge_step all lang = (all ++ [lang])%list.
Proof.
  intros Hs Hnone. unfold merge_step. rewrite Hs.
  assert (Hfind : list_find (fun y => same_lang lang y = true) all = None).
  { apply list_find_None. apply Forall_forall. intros y Hy Hsame.
    apply same_lang_iff in Hsame as [Hyc Hyn].
    apply (Hnone y Hy). split; assumption. }
  rewrite Hfind. reflexivity.
Qed.

(** C6.  Started on arrays of live references, the pass never writes to a
    source record; the entries of [allUniqueLangs] are objects allocated by
    the pass, pairwise distinct, none of them a source record.  Every entry
    has a name and a color, is the only entry with that name and color, and
    its size is the sum of the shares of the source records that have a
    name and a color and carry that same name and that same color; every
    such record has its entry.  One step of the pass leaves the list as it
    is for a record without a name or without a color; for another record
    it replaces the first entry of equal name and equal color by the same
    entry with the record's share added to its size, and when there is no
    such entry it appends the record. *)
Theorem merge_pass_copies_and_accumulates (h : gmap loc Lang)
    (langs : list (list loc)) :
  Forall (Forall (fun l => is_Some (h !! l))) langs ->
  let st := merge_refs h langs in
  let records := concat (map (deref h) langs) in
  (forall l, l ∈ dom h -> heap st !! l = h !! l)
  /\ Forall (fun r => r ∉ dom h) (allUniqueLangs st)
  /\ NoDup (allUniqueLangs st)
  /\ point_to (heap st) (allUniqueLangs st) (merge (map (deref h) langs))
  /\ (forall r x,
        r ∈ allUniqueLangs st -> heap st !! r = Some x ->
        truthy (name x) = true /\ truthy (color x) = true
        /\ size x = total (contributions (name x) (color x) records)
        /\ forall r' x',
             r' ∈ allUniqueLangs st -> heap st !! r' = Some x' ->
             name x' = name x -> color x' = color x -> r' = r)
  /\ (forall lang,
        lang ∈ records ->
        truthy (name lang) = true -> truthy (color lang) = true ->
        exists r x, r ∈ allUniqueLangs st /\ heap st !! r = Some x
                    /\ name x = name lang /\ color x = color lang)
  /\ (forall all lang,
        truthy (name lang) = false \/ truthy (color lang) = false ->
        merge_step all lang = all)
  /\ (forall all lang i x,
        truthy (name lang) = true -> truthy (color lang) = true ->
        all !! i = Some x -> name x = name lang -> color x = color lang ->
        (forall j y, (j < i)%nat -> all !! j = Some y ->
                     ~ (name y = name lang /\ color y = color lang)) ->
        merge_step all lang
        = <[i := {| name := name x; size := add (size x) (size lang);
                    color := color x; repo_name := repo_name x |}]> all)
  /\ (forall all lang,
        truthy (name lang) = true -> truthy (color lang) = true ->
        (forall y, y ∈ all ->
                   ~ (name y = name lang /\ color y = color lang)) ->
        merge_step all lang = (all ++ [lang])%list).
Proof.
  intros Hlive st records.
  assert (Hinv : merge_inv h st (merge (map (deref h) langs))).
  { apply merge_refs_inv; [exact Hlive|].
    split; cbn [heap allUniqueLangs]; [reflexivity|constructor..]. }
  destruct Hinv as [Hsrc Hfresh Hnd Hval].
  destruct (merge_keys_inv (map (deref h) langs)) as [Hkeys Hcounted].
  assert (Hentry : forall r x,
            r ∈ allUniqueLangs st -> heap st !! r = Some x ->
            exists i, allUniqueLangs st !! i = Some r
                      /\ merge (map (deref h) langs) !! i = Some x).
  { intros r x Hr Hx. apply list_elem_of_lookup_1 in Hr as [i Hi].
    destruct (Forall2_lookup_l _ _ _ _ _ Hval Hi) as (v & Hv & Hrv).
    exists i. split; [exact Hi|]. rewrite Hx in Hrv. congruence. }
  repeat (split; [assumption|]).
  split.
  { intros r x Hr Hx. destruct (Hentry r x Hr Hx) as (i & Hi & Hv).
    assert (Hin : x ∈ merge (map (deref h) langs))
      by (eapply list_elem_of_lookup_2, Hv).
    rewrite Forall_forall in Hcounted.
    destruct (proj1 (truthy_not_skipped x) (Hcounted x Hin)) as [Hn Hc].
    split; [exact Hn|]. split; [exact Hc|]. split.
    - pose proof (merged_size_elem _ x Hkeys Hin) as Hsize.
      rewrite merged_size_merge in Hsize. fold records in Hsize.
      destruct (contributions (name x) (color x) records);
        [discriminate|]. injection Hsize as <-. reflexivity.
    - intros r' x' Hr' Hx' Hn' Hc'.
      destruct (Hentry r' x' Hr' Hx') as (i' & Hi' & Hv').
      assert (Heq : i' = i).
      { apply (NoDup_lookup _ i' i (lang_key x) Hkeys).
        - rewrite list_lookup_fmap, Hv'. cbn. unfold lang_key. congruence.
        - rewrite list_lookup_fmap, Hv. reflexivity. }
      subst i'. congruence. }
  split.
  { intros lang Hin Hn Hc.
    assert (Hs : skipped lang = false)
      by (apply truthy_not_skipped; split; assumption).
    assert (Hsome : is_Some (merged_size (name lang) (color lang)
                               (merge (map (deref h) langs)))).
    { rewrite merged_size_merge. apply accumulated_None.
      fold records. unfold contributions. intros Hnil.
      apply fmap_nil_inv in Hnil.
      assert (Hin' : lang ∈ filter
                (fun l => skipped l = false /\ color l = color lang
                          /\ name l = name lang) records).
      { apply list_elem_of_filter. split; [|exact Hin]. auto. }
      rewrite Hnil in Hin'. inversion Hin'. }
    destruct Hsome as [s Hsz]. unfold merged_size in Hsz.
    apply fmap_Some in Hsz as ([i x] & Hfind & _).
    apply list_find_Some in Hfind as (Hi & [Hxc Hxn] & _).
    destruct (Forall2_lookup_r _ _ _ _ _ Hval Hi) as (r & Hr & Hrx).
    exists r, x. split; [eapply list_elem_of_lookup_2, Hr|].
    split; [exact Hrx|]. split; assumption. }
  split.
  { intros all lang Hmiss. unfold merge_step, skipped.
    destruct Hmiss as [-> | ->]; cbn [negb orb];
      rewrite ?orb_true_r; reflexivity. }
  split.
  { intros all lang i x Hn Hc. apply merge_step_found.
    apply truthy_not_skipped. split; assumption. }
  intros all lang Hn Hc. apply merge_step_new.
  apply truthy_not_skipped. split; assumption.
Qed.

End Merge_pass_on_store.

Lemma merge_pass_copies_and_accumulates_witness :
  let h := Samples.two_repos_store in
  let langs := Samples.two_repos_refs in
  let st := merge_refs h langs in
  Forall (Forall (fun l => is_Some (h !! l))) langs
  /\ allUniqueLangs st = [5%positive; 6%positive; 7%positive]
  /\ (exists x, heap st !! 6%positive = Some x
                /\ name x = Some "TS"%string
                /\ size x = ofQ (7 # 10))
  /\ size <$> heap st !! 2%positive = Some (ofQ (1 # 5))
  /\ size <$> heap st !! 3%positive = Some (ofQ (1 # 2))
  /\ (forall r x,
        r ∈ allUniqueLangs st -> heap st !! r = Some x ->
        size x
        = total (contributions (name x) (color x)
                   (concat (map (deref h) langs))))
  /\ merge_step
       [ mkLang (Some "JS") (Some "#f1e05a") (ofQ (4 # 5)) "alpha";
         mkLang (Some "TS") (Some "#3178c6") (ofQ (1 # 5)) "alpha" ]
       (mkLang (Some "TS") (Some "#3178c6") (ofQ (1 # 2)) "beta")
     = [ mkLang (Some "JS") (Some "#f1e05a") (ofQ (4 # 5)) "alpha";
         mkLang (Some "TS") (Some "#3178c6") (ofQ (7 # 10)) "alpha" ].
Proof.
  intros h langs st.
  assert (Hlive : Forall (Forall (fun l => is_Some (h !! l))) langs).
  { repeat constructor; eexists; vm_compute; reflexivity. }
  destruct (merge_pass_copies_and_accumulates h langs Hlive)
    as (Hsrc & _ & _ & _ & Hentry & _ & _ & Hfound & _).
  fold st in Hsrc, Hentry.
  assert (Hrefs : allUniqueLangs st = [5%positive; 6%positive; 7%positive]).
  { vm_compute. reflexivity. }
  split; [exact Hlive|]. split; [exact Hrefs|].
  split.
  { destruct (heap st !! 6%positive) as [x|] eqn:Hx.
    - exists x. split; [reflexivity|].
      assert (Hn : name x = Some "TS"%string /\ color x = Some "#3178c6"%string).
      { assert (Hnc : (fun o => (name <$> o, color <$> o))
                        (heap st !! 6%positive)
                      = (Some (Some "TS"%string), Some (Some "#3178c6"%string))).
        { vm_compute. reflexivity. }
        rewrite Hx in Hnc. cbn in Hnc. injection Hnc as -> ->.
        split; reflexivity. }
      destruct Hn as [Hn Hc]. split; [exact Hn|].
      assert (Hin : 6%positive ∈ allUniqueLangs st)
        by (rewrite Hrefs; right; left).
      destruct (Hentry 6%positive x Hin Hx) as (_ & _ & Hsize & _).
      rewrite Hsize, Hn, Hc.
      apply (bool_decide_unpack _). vm_compute. exact I.
    - exfalso.
      assert (Hsome : bool_decide (is_Some (heap st !! 6%positive)) = true)
        by (vm_compute; reflexivity).
      apply bool_decide_eq_true in Hsome. rewrite Hx in Hsome.
      destruct Hsome as [? ?]. discriminate. }
  split.
  { etrans; [apply (f_equal (fmap size)), (Hsrc 2%positive)|].
    - apply (bool_decide_unpack _). vm_compute. exact I.
    - apply (bool_decide_unpack _). vm_compute. exact I. }
  split.
  { etrans; [apply (f_equal (fmap size)), (Hsrc 3%positive)|].
    - apply (bool_decide_unpack _). vm_compute. exact I.
    - apply (bool_decide_unpack _). vm_compute. exact I. }
  split.
  { intros r x Hr Hx. destruct (Hentry r x Hr Hx) as (_ & _ & Hsize & _).
    exact Hsize. }
  rewrite (Hfound
             [ mkLang (Some "JS") (Some "#f1e05a") (ofQ (4 # 5)) "alpha";
               mkLang (Some "TS") (Some "#3178c6") (ofQ (1 # 5)) "alpha" ]
             (mkLang (Some "TS") (Some "#3178c6") (ofQ (1 # 2)) "beta")
             1%nat
             (mkLang (Some "TS") (Some "#3178c6") (ofQ (1 # 5)) "alpha")
             eq_refl eq_refl eq_refl eq_refl eq_refl).
  - apply (bool_decide_unpack _). vm_compute. exact I.
  - intros j y Hj Hy [Hn _]. destruct j as [|j]; [|lia].
    injection Hy as <-. discriminate Hn.
Defined.

(** ** Instances of the properties above *)

Lemma fetchTopLanguages_shape_witness :
  let res := Samples.ok_response [Samples.alpha; Samples.empty_file_repo;
                                  Samples.beta] in
  let topLangs := [normalize Samples.alpha; normalize Samples.empty_file_repo;
                   normalize Samples.beta] in
  fetchTopLanguages Samples.no_wrap "octocat" [] (inr res) = inr topLangs
  /\ Forall (fun l => l <> []) topLangs
  /\ Forall2 (fun repo l => map label l = map (edge_label repo) (edges repo))
       (with_languages (nodes res)) topLangs
  /\ (length topLangs <= length (nodes res))%nat.
Proof.
  intros res topLangs.
  assert (Hfetch : fetchTopLanguages Samples.no_wrap "octocat" [] (inr res)
                   = inr topLangs) by reflexivity.
  split; [exact Hfetch|].
  exact (fetchTopLanguages_shape Samples.no_wrap "octocat" [] res topLangs
           Hfetch).
Defined.

Lemma normalize_shares_in_unit_interval_witness :
  let repo := Samples.sevenths in
  Forall (fun e => 0 <= edge_size e) (edges repo)
  /\ 0 < bytes (edges repo)
  /\ Forall2 (fun e lang =>
                size lang
                = ofQ (inject_Z (edge_size e) / inject_Z (bytes (edges repo)))
                /\ (0 <= inject_Z (edge_size e) / inject_Z (bytes (edges repo))
                    <= 1)%Q)
       (edges repo) (normalize repo).
Proof.
  intros repo.
  assert (Hpos : Forall (fun e => 0 <= edge_size e) (edges repo)).
  { repeat constructor; discriminate. }
  assert (HT : 0 < bytes (edges repo)) by reflexivity.
  split; [exact Hpos|]. split; [exact HT|].
  exact (normalize_shares_in_unit_interval repo Hpos HT).
Defined.

Lemma useLanguages_selection_sorted_witness :
  let hide := Some ["go"%string] in
  let sel :=
    {| langs := [ Samples.lang "JS" "#f1e05a" (4 # 5);
                  Samples.lang "TS" "#3178c6" (7 # 10) ];
       totalLanguageSize := ofQ (3 # 2) |} in
  Forall finite_size (Object_values Samples.scenario)
  /\ useLanguages Samples.scenario hide "5" = inr sel
  /\ langs sel
     `sublist_of` Array_sort by_size_desc (Object_values Samples.scenario)
  /\ Array_sort by_size_desc (Object_values Samples.scenario)
     ≡ₚ Object_values Samples.scenario
  /\ (forall i j a b,
        (i < j)%nat -> langs sel !! i = Some a -> langs sel !! j = Some b ->
        lt (size a) (size b) = false).
Proof.
  intros hide sel.
  assert (Hfin : Forall finite_size (Object_values Samples.scenario)).
  { repeat constructor. }
  assert (Hsel : useLanguages Samples.scenario hide "5" = inr sel).
  { apply (bool_decide_unpack _). vm_compute. exact I. }
  split; [exact Hfin|]. split; [exact Hsel|].
  exact (useLanguages_selection_sorted Samples.scenario hide "5" sel
           Hfin Hsel).
Defined.

Lemma useLanguages_total_witness :
  let hide := Some ["go"%string] in
  let sel :=
    {| langs := [ Samples.lang "JS" "#f1e05a" (4 # 5);
                  Samples.lang "TS" "#3178c6" (7 # 10) ];
       totalLanguageSize := ofQ (3 # 2) |} in
  useLanguages Samples.scenario hide "5" = inr sel
  /\ Forall finite_size (Object_values Samples.scenario)
  /\ totalLanguageSize sel <> ofZ 0
  /\ totalLanguageSize sel = total (map size (langs sel))
  /\ total (map (fun lang =>
                   mul (div (size lang) (totalLanguageSize sel)) (ofZ 100))
              (langs sel))
     = ofZ 100.
Proof.
  intros hide sel.
  assert (Hsel : useLanguages Samples.scenario hide "5" = inr sel).
  { apply (bool_decide_unpack _). vm_compute. exact I. }
  assert (Hfin : Forall finite_size (Object_values Samples.scenario)).
  { repeat constructor; eexists; reflexivity. }
  assert (Hnz : totalLanguageSize sel <> ofZ 0).
  { intros Hz. apply ofQ_eq in Hz. vm_compute in Hz. discriminate Hz. }
  split; [exact Hsel|]. split; [exact Hfin|]. split; [exact Hnz|].
  split.
  - exact (proj1 (useLanguages_total Samples.scenario hide "5" sel Hsel)).
  - exact (proj2 (useLanguages_total Samples.scenario hide "5" sel Hsel)
             Hfin Hnz).
Defined.

Lemma useLanguages_membership_witness :
  let hide := Some ["go"%string] in
  let js := Samples.lang "JS" "#f1e05a" (4 # 5) in
  let sel :=
    {| langs := [ js; Samples.lang "TS" "#3178c6" (7 # 10) ];
       totalLanguageSize := ofQ (3 # 2) |} in
  useLanguages Samples.scenario hide "5" = inr sel
  /\ clampValue (parseInt "5") (ofZ 1) (ofZ 10) = ofZ 5
  /\ Z.of_nat (length (Object_values Samples.scenario)) <= 5
  /\ js ∈ Object_values Samples.scenario
  /\ kept_name hide "JS"
  /\ js ∈ langs sel
  /\ (forall lang, lang ∈ langs sel ->
        lang ∈ Object_values Samples.scenario
        /\ exists n, name lang = Some n /\ kept_name hide n).
Proof.
  intros hide js sel.
  assert (Hsel : useLanguages Samples.scenario hide "5" = inr sel).
  { apply (bool_decide_unpack _). vm_compute. exact I. }
  assert (Hk : clampValue (parseInt "5") (ofZ 1) (ofZ 10) = ofZ 5).
  { apply (bool_decide_unpack _). vm_compute. exact I. }
  assert (Hlen : Z.of_nat (length (Object_values Samples.scenario)) <= 5).
  { vm_compute. discriminate. }
  assert (Hin : js ∈ Object_values Samples.scenario).
  { apply (bool_decide_unpack _). vm_compute. exact I. }
  assert (Hkept : kept_name hide "JS").
  { split; apply (bool_decide_unpack _); vm_compute; exact I. }
  split; [exact Hsel|]. split; [exact Hk|]. split; [exact Hlen|].
  split; [exact Hin|]. split; [exact Hkept|]. split.
  - exact (proj2 (useLanguages_membership Samples.scenario hide "5" sel Hsel)
             5 js "JS"%string Hk Hlen Hin eq_refl Hkept).
  - exact (proj1 (useLanguages_membership Samples.scenario hide "5" sel Hsel)).
Defined.

Lemma merge_order_irrelevant_witness :
  let A := normalize Samples.alpha in
  let B := normalize Samples.beta in
  concat [A; B] ≡ₚ concat [B; A]
  /\ merged_size (Some "TS") (Some "#3178c6") (merge [A; B])
     = merged_size (Some "TS") (Some "#3178c6") (merge [B; A]).
Proof.
  intros A B.
  assert (Hperm : concat [A; B] ≡ₚ concat [B; A]).
  { cbn [concat]. rewrite !app_nil_r. apply Permutation_app_comm. }
  split; [exact Hperm|].
  exact (merge_order_irrelevant [A; B] [B; A] (Some "TS") (Some "#3178c6")
           Hperm).
Defined.

Lemma merged_sizes_count_repositories_witness :
  let res := Samples.ok_response [Samples.alpha; Samples.beta] in
  let topLangs := [normalize Samples.alpha; normalize Samples.beta] in
  fetchTopLanguages Samples.no_wrap "octocat" [] (inr res) = inr topLangs
  /\ Forall (fun repo =>
               0 < bytes (edges repo)
               /\ Forall (fun e => truthy (node_name (node e)) = true
                                  /\ truthy (node_color (node e)) = true)
                    (edges repo))
       (with_languages (nodes res))
  /\ total (map size (merge topLangs)) = ofNat (length topLangs).
Proof.
  intros res topLangs.
  assert (Hfetch : fetchTopLanguages Samples.no_wrap "octocat" [] (inr res)
                   = inr topLangs) by reflexivity.
  assert (Hrepos :
    Forall (fun repo =>
              0 < bytes (edges repo)
              /\ Forall (fun e => truthy (node_name (node e)) = true
                                 /\ truthy (node_color (node e)) = true)
                   (edges repo))
      (with_languages (nodes res))).
  { apply (bool_decide_unpack _). vm_compute. exact I. }
  split; [exact Hfetch|]. split; [exact Hrepos|].
  exact (merged_sizes_count_repositories Samples.no_wrap "octocat" [] res
           topLangs Hfetch Hrepos).
Defined.

Lemma compact_strip_visible_witness :
  let langs := normalize Samples.sevenths in
  let w := inject_Z 40 in
  let segs :=
    @compactProgressBar Samples.plain_runtime langs (ofQ w) (ofZ 0) in
  Forall (fun l => exists s : Q, size l = ofQ s /\ (0 <= s <= 1)%Q) langs
  /\ (0 <= w < inject_Z (10 ^ 21))%Q
  /\ length segs = length langs
  /\ Forall (fun seg => lt (seg_width seg) (ofZ 10) = false) segs
  /\ (forall i seg next,
        segs !! i = Some seg -> segs !! S i = Some next ->
        lt (seg_x next) (seg_x seg) = false).
Proof.
  intros langs w segs.
  assert (Hall : Forall (fun l => exists s : Q,
                           size l = ofQ s /\ (0 <= s <= 1)%Q) langs).
  { repeat constructor.
    - exists (1 # 7)%Q. split; [|split; discriminate].
      apply (bool_decide_unpack _). vm_compute. exact I.
    - exists (1 # 7)%Q. split; [|split; discriminate].
      apply (bool_decide_unpack _). vm_compute. exact I.
    - exists (5 # 7)%Q. split; [|split; discriminate].
      apply (bool_decide_unpack _). vm_compute. exact I. }
  assert (Hw : (0 <= w < inject_Z (10 ^ 21))%Q).
  { split; [discriminate|reflexivity]. }
  split; [exact Hall|]. split; [exact Hw|].
  exact (@compact_strip_visible Samples.plain_runtime langs w Hall Hw).
Defined.

Lemma compact_strip_NaN_spreads_witness :
  let langs :=
    (normalize Samples.empty_file_repo ++ normalize Samples.alpha)%list in
  let lang := mkLang (Some "Markdown") (Some "#083fa1") NaN "notes" in
  let segs :=
    @compactProgressBar Samples.plain_runtime langs (ofZ 300) (ofZ 0) in
  langs !! 0%nat = Some lang
  /\ size lang = NaN
  /\ (exists seg, segs !! 0%nat = Some seg /\ seg_width seg = NaN)
  /\ (forall j seg, (0 < j)%nat -> segs !! j = Some seg -> seg_x seg = NaN).
Proof.
  intros langs lang segs.
  assert (Hl : langs !! 0%nat = Some lang) by (vm_compute; reflexivity).
  assert (Hs : size lang = NaN) by reflexivity.
  split; [exact Hl|]. split; [exact Hs|].
  exact (@compact_strip_NaN_spreads Samples.plain_runtime langs (ofZ 300)
           0%nat lang Hl Hs).
Defined.

Lemma resolve_bar_width_bounds_witness :
  lt (ofZ 100) MIN_CARD_WIDTH = true
  /\ resolve_bar_width (Some (ofZ 100)) = MIN_CARD_WIDTH
  /\ isNaN (resolve_bar_width (Some (ofZ 100))) = false.
Proof.
  assert (H : lt (ofZ 100) MIN_CARD_WIDTH = true).
  { unfold MIN_CARD_WIDTH. rewrite lt_ofZ. reflexivity. }
  split; [exact H|]. split.
  - exact (proj1 (proj2 (proj2 (proj2
             (resolve_bar_width_bounds (Some (ofZ 100))))))
             (ofZ 100) eq_refl H).
  - exact (proj1 (resolve_bar_width_bounds (Some (ofZ 100)))).
Defined.

Lemma getLongestLang_longest_witness :
  let arr := Object_values Samples.scenario in
  Forall (fun lang => is_Some (name lang)) arr
  /\ Forall (fun lang =>
               (name_length lang <= name_length (getLongestLang arr))%nat) arr
  /\ (getLongestLang arr ∈ arr
      \/ (getLongestLang arr = longest_seed
          /\ Forall (fun lang => name lang = Some EmptyString) arr)).
Proof.
  intros arr.
  assert (Hnamed : Forall (fun lang => is_Some (name lang)) arr).
  { repeat constructor; eexists; reflexivity. }
  split; [exact Hnamed|].
  exact (getLongestLang_longest arr Hnamed).
Defined.

Lemma merge_pass_footprint_witness :
  let h := Samples.two_repos_store in
  let langs := Samples.two_repos_refs in
  let st := merge_refs h langs in
  Forall (Forall (fun l => is_Some (h !! l))) langs
  /\ dom (heap st) = dom h ∪ list_to_set (allUniqueLangs st)
  /\ length (allUniqueLangs st) = length (merge (map (deref h) langs))
  /\ base.size (dom (heap st))
     = (base.size (dom h) + length (merge (map (deref h) langs)))%nat.
Proof.
  intros h langs st.
  assert (Hlive : Forall (Forall (fun l => is_Some (h !! l))) langs).
  { repeat constructor; eexists; vm_compute; reflexivity. }
  split; [exact Hlive|].
  exact (merge_pass_footprint h langs Hlive).
Defined.
